(** * SnapshottableMap: a versioned key-value store

    Shallow embedding of [src/py_playground/snapshot_map.py] and the
    verification of its specification; the validator of
    [src/json_validator.py] follows it.  Python integers are unbounded, so
    they are [Z]; the dictionary [_key_history_store] is a [gmap] from
    strings to lists of history entries; exceptions are values of
    [result]. *)

From Stdlib Require Import ZArith Lia.
From stdpp Require Import gmap strings list fin_maps sorting pretty.
From Equations Require Import Equations.
From Equations.Prop Require Import Logic.

Local Open Scope Z_scope.

(** ** Data model *)

(** [class HistoryEntry]: a value (or [None], the tombstone) recorded at a
    snapshot moment. *)
Record HistoryEntry : Type := mkHistoryEntry {
  snap_id : Z;
  value : option Z
}.

#[global] Instance HistoryEntry_eq_dec : EqDecision HistoryEntry.
Proof. solve_decision. Defined.

(** [class SnapshottableMap]: the two attributes set by [__init__]. *)
Record SnapshottableMap : Type := mkMap {
  _key_history_store : gmap string (list HistoryEntry);
  _next_snap_id : Z
}.

(** [SnapshottableMap.__init__] *)
Definition init : SnapshottableMap :=
  {| _key_history_store := ∅; _next_snap_id := 0 |}.

(** ** Exceptions *)

(** The exception classes a call can raise, with their message:
    [IndexError] and [KeyError] by the module's own [raise] statements,
    [ValueError] by the interpreter while an error message is formatted. *)
Inductive exception : Type :=
| IndexError (msg : string)
| KeyError (msg : string)
| ValueError (msg : string).

Inductive result (A : Type) : Type :=
| Return (a : A)
| Raise (e : exception).
Arguments Return {A} a.
Arguments Raise {A} e.

(** The decimal numeral of an integer, with its sign. *)
Definition digits (n : Z) : string := pretty n.

(** [sys.get_int_max_str_digits()], the interpreter's default (CPython 3.11,
    and every release since 3.10.7). *)
Definition int_max_str_digits : Z := 4300.

(** An integer whose numeral has at most [int_max_str_digits] digits, the sign
    not counted. *)
Definition within_str_digits (n : Z) : Prop :=
  Z.abs n < 10 ^ int_max_str_digits.

#[global] Instance within_str_digits_dec n : Decision (within_str_digits n).
Proof. unfold within_str_digits. apply _. Defined.

(** The message of the interpreter's [ValueError] on a longer numeral. *)
Definition int_str_limit : string :=
  "Exceeds the limit (4300 digits) for integer string conversion; "
    +:+ "use sys.set_int_max_str_digits() to increase the limit".

(** [str(n)] for a Python integer, which is also how an f-string formats the
    field [{n}]: the numeral, or [ValueError] when it has more than
    [int_max_str_digits] digits. *)
Definition str (n : Z) : result string :=
  if bool_decide (within_str_digits n) then Return (digits n)
  else Raise (ValueError int_str_limit).

(** The messages, one per [raise] site, as the f-strings build them. *)
Module Msg.
Definition get_missing (k : string) : string :=
  "Key '" +:+ k +:+ "' not found in current map state.".
Definition get_deleted (k : string) : string :=
  "Key '" +:+ k +:+ "' not found (it may have been deleted).".
(** Lines 110-112: the conditional expression formats the counter only when
    it is not [0]. *)
Definition valid_range (next : Z) : result string :=
  if bool_decide (next = 0) then Return "No snapshots taken yet."
  else
    match str (next - 1) with
    | Raise e => Raise e
    | Return last_id => Return ("0 to " +:+ last_id +:+ ".")
    end.
(** Line 113, after [valid_range] was built: [snap] is whatever integer the
    caller passed. *)
Definition invalid_snap_id (snap next : Z) : result string :=
  match valid_range next with
  | Raise e => Raise e
  | Return range =>
      match str snap with
      | Raise e => Raise e
      | Return id => Return ("Invalid snap_id: " +:+ id +:+ ". " +:+ range)
      end
  end.
(** Lines 118 and 143 are reached with a valid [snap], one below the counter.
    Its numeral is written with [digits]: [str] fails there only once the
    counter itself has more than [int_max_str_digits] digits, which takes
    more than [10 ^ 4300] calls of [take_snapshot]. *)
Definition never_existed (k : string) (snap : Z) : string :=
  "Key '" +:+ k +:+ "' never existed, so it's not in snapshot "
    +:+ digits snap +:+ ".".
Definition deleted_at (k : string) (snap : Z) : string :=
  "Key '" +:+ k +:+ "' did not exist in snapshot " +:+ digits snap
    +:+ " (it was deleted).".
(** The message of the interpreter's own [IndexError] on [l[i]]. *)
Definition list_index : string := "list index out of range".
End Msg.

(** ** List indexing *)

(** [l[i]] on a Python list: a negative index counts from the end, an index
    out of range raises [IndexError]. *)
Definition py_getitem {A} (l : list A) (i : Z) : result A :=
  let n := Z.of_nat (length l) in
  let j := if bool_decide (i < 0) then i + n else i in
  if bool_decide (0 <= j < n) then
    match l !! Z.to_nat j with
    | Some x => Return x
    | None => Raise (IndexError Msg.list_index)
    end
  else Raise (IndexError Msg.list_index).

(** ** Operations *)

(** [take_snapshot]: the returned identifier and the new state. *)
Definition take_snapshot (m : SnapshottableMap) : Z * SnapshottableMap :=
  let snap := _next_snap_id m in
  (snap, {| _key_history_store := _key_history_store m;
            _next_snap_id := _next_snap_id m + 1 |}).

(** [history[-1].value = v], for a non-empty [history] whose last entry is
    [e]. *)
Definition set_last_value (history : list HistoryEntry) (e : HistoryEntry)
    (v : option Z) : list HistoryEntry :=
  <[pred (length history) := {| snap_id := snap_id e; value := v |}]> history.

(** [put]: [setdefault] yields the key's list (a fresh empty one when the key
    is new) and the list is then updated in place, so the store maps the key
    to the updated list.  No list and no entry is handed out by any method,
    so nothing else aliases them.  [last history] is [None] exactly when
    [history] is falsy, and is [history[-1]] otherwise. *)
Definition put (k : string) (v : option Z) (m : SnapshottableMap)
    : SnapshottableMap :=
  let history := default [] (_key_history_store m !! k) in
  let history' :=
    match last history with
    | Some e =>
        if bool_decide (snap_id e = _next_snap_id m)
        then set_last_value history e v
        else history ++ [{| snap_id := _next_snap_id m; value := v |}]
    | None => history ++ [{| snap_id := _next_snap_id m; value := v |}]
    end in
  {| _key_history_store := <[k := history']> (_key_history_store m);
     _next_snap_id := _next_snap_id m |}.

(** [delete] *)
Definition delete (k : string) (m : SnapshottableMap) : SnapshottableMap :=
  match _key_history_store m !! k with
  | Some _ => put k None m
  | None => m
  end.

(** [get]: [not history] holds for a missing key and for an empty list. *)
Definition get (k : string) (m : SnapshottableMap) : result Z :=
  match _key_history_store m !! k ≫= last with
  | None => Raise (KeyError (Msg.get_missing k))
  | Some e =>
      match value e with
      | None => Raise (KeyError (Msg.get_deleted k))
      | Some latest_value => Return latest_value
      end
  end.

(** The [while left <= right] loop of [get_from_snapshot], on the loop
    variables [left], [right] and [idx] (written [left_] and [right_]: the
    plain names are constructors here); it returns the final [idx].  The
    interval [right_ - left_ + 1] shrinks at every iteration. *)
Equations? bsearch_loop (history : list HistoryEntry) (snap : Z)
    (left_ right_ idx : Z) : result Z
    by wf (Z.to_nat (right_ - left_ + 1)) lt :=
  bsearch_loop history snap left_ right_ idx
    with inspect (bool_decide (left_ <= right_)) => {
    | exist _ false _ => Return idx
    | exist _ true Hle with py_getitem history ((left_ + right_) `div` 2) => {
      | Raise e => Raise e
      | Return entry with bool_decide (snap_id entry <= snap) => {
        | true =>
            bsearch_loop history snap ((left_ + right_) `div` 2 + 1) right_
              ((left_ + right_) `div` 2)
        | false =>
            bsearch_loop history snap left_ ((left_ + right_) `div` 2 - 1) idx
        }
      }
    }.
Proof.
  all: apply bool_decide_eq_true in Hle;
    assert (left_ <= (left_ + right_) `div` 2 <= right_)
    by (split; [apply Z.div_le_lower_bound | apply Z.div_le_upper_bound]; lia);
    lia.
Qed.

(** Lines 123-134 of [get_from_snapshot]: the search from
    [left, right = 0, len(history) - 1] and [idx = -1]. *)
Definition bsearch (history : list HistoryEntry) (snap : Z) : result Z :=
  bsearch_loop history snap 0 (Z.of_nat (length history) - 1) (-1).

(** [get_from_snapshot]; the value [None] it returns after logging is
    [Return None].  The call to [logger.error] does not touch the map and is
    not part of the state.  Line 113 builds the message before line 114
    raises, so an exception of the formatting is the one the call raises. *)
Definition get_from_snapshot (k : string) (snap : Z) (m : SnapshottableMap)
    : result (option Z) :=
  if negb (bool_decide (0 <= snap < _next_snap_id m)) then
    match Msg.invalid_snap_id snap (_next_snap_id m) with
    | Raise e => Raise e
    | Return msg => Raise (IndexError msg)
    end
  else
    match _key_history_store m !! k with
    | None | Some [] => Raise (KeyError (Msg.never_existed k snap))
    | Some history =>
        match bsearch history snap with
        | Raise e => Raise e
        | Return idx =>
            if bool_decide (idx = -1) then Return None
            else
              match py_getitem history idx with
              | Raise e => Raise e
              | Return entry =>
                  match value entry with
                  | None => Raise (KeyError (Msg.deleted_at k snap))
                  | Some relevant_value => Return (Some relevant_value)
                  end
              end
        end
    end.

(** ** Sequences of calls *)

(** A call of one of the five public methods. *)
Inductive op : Type :=
| Put (k : string) (v : option Z)
| Delete (k : string)
| Get (k : string)
| TakeSnapshot
| GetFromSnapshot (k : string) (snap : Z).

#[global] Instance op_eq_dec : EqDecision op.
Proof. solve_decision. Defined.

(** What the caller observes of a call. *)
Inductive response : Type :=
| Done
| Snapshot (id : Z)
| Got (r : result Z)
| GotFromSnapshot (r : result (option Z)).

(** One call: its response and the map afterwards.  An exception leaves the
    map as it was. *)
Definition call (o : op) (m : SnapshottableMap) : response * SnapshottableMap :=
  match o with
  | Put k v => (Done, put k v m)
  | Delete k => (Done, delete k m)
  | Get k => (Got (get k m), m)
  | TakeSnapshot => let '(id, m') := take_snapshot m in (Snapshot id, m')
  | GetFromSnapshot k snap => (GotFromSnapshot (get_from_snapshot k snap m), m)
  end.

Definition step (m : SnapshottableMap) (o : op) : SnapshottableMap :=
  snd (call o m).

(** The map after a sequence of calls. *)
Definition run (ops : list op) (m : SnapshottableMap) : SnapshottableMap :=
  foldl step m ops.

(** The responses of a sequence of calls, in order. *)
Fixpoint responses (ops : list op) (m : SnapshottableMap) : list response :=
  match ops with
  | [] => []
  | o :: ops => fst (call o m) :: responses ops (snd (call o m))
  end.

(** The identifiers that the [take_snapshot] calls of a sequence returned. *)
Definition snapshot_ids (rs : list response) : list Z :=
  omap (λ r, match r with Snapshot id => Some id | _ => None end) rs.

Definition is_take_snapshot (o : op) : bool :=
  match o with TakeSnapshot => true | _ => false end.

(** ** Notions of the specification *)

(** The Timeline of a key: empty when the key has none. *)
Definition timeline (k : string) (m : SnapshottableMap) : list HistoryEntry :=
  default [] (_key_history_store m !! k).

(** Entry versions strictly increase along a Timeline. *)
Definition strictly_increasing (h : list HistoryEntry) : Prop :=
  StronglySorted (λ a b, snap_id a < snap_id b) h.

(** The last Timeline entry whose version is at most [v]. *)
Definition resolve (h : list HistoryEntry) (v : Z) : option HistoryEntry :=
  last (filter (λ e, snap_id e <= v) h).

(** Linear scan, front to back, for the index of the rightmost entry whose
    version is at most [v]; [idx] is the best index so far and [i] the index
    of the head of [h]. *)
Fixpoint linear_scan_from (h : list HistoryEntry) (v : Z) (i idx : Z) : Z :=
  match h with
  | [] => idx
  | e :: h' =>
      linear_scan_from h' v (i + 1) (if bool_decide (snap_id e <= v) then i else idx)
  end.

Definition linear_scan (h : list HistoryEntry) (v : Z) : Z :=
  linear_scan_from h v 0 (-1).

(** The entries of a Timeline that a write at pending version [N] leaves as
    they are: all of them, or all but the last when the last carries [N]. *)
Definition kept (N : Z) (h : list HistoryEntry) : list HistoryEntry :=
  match last h with
  | Some e => if bool_decide (snap_id e = N) then take (pred (length h)) h else h
  | None => h
  end.

(** The shape of every Timeline of a map whose counter is [N]: it holds an
    entry, its versions strictly increase, and none exceeds [N]. *)
Definition wf_timeline (N : Z) (h : list HistoryEntry) : Prop :=
  h ≠ [] ∧ strictly_increasing h ∧ Forall (λ e, 0 <= snap_id e <= N) h.

Definition wf_map (m : SnapshottableMap) : Prop :=
  0 <= _next_snap_id m
  ∧ ∀ k h, _key_history_store m !! k = Some h → wf_timeline (_next_snap_id m) h.

(** Two maps that differ at most in the pending entry of [k]: the same
    counter, the same Timelines for the other keys, and the same kept entries
    for [k]. *)
Definition agree_up_to_pending (k : string) (m1 m2 : SnapshottableMap) : Prop :=
  _next_snap_id m1 = _next_snap_id m2
  ∧ (∀ k', k' ≠ k → _key_history_store m1 !! k' = _key_history_store m2 !! k')
  ∧ kept (_next_snap_id m1) (timeline k m1)
    = kept (_next_snap_id m2) (timeline k m2).

(** The key a call writes to, if it is a [put] or a [delete]. *)
Definition written_key (o : op) : option string :=
  match o with
  | Put k _ | Delete k => Some k
  | _ => None
  end.

(** The most recent [put] or [delete] on [k] in a sequence of calls. *)
Definition most_recent_write (k : string) (ops : list op) : option op :=
  last (filter (λ o, written_key o = Some k) ops).

(** The value a write leaves as the current one: the integer of a [put] of
    an integer, and none after a [delete] or a [put] of [None]. *)
Definition written_value (o : option op) : option Z :=
  match o with
  | Some (Put _ v) => v
  | _ => None
  end.

(** What [get] makes of the last entry of a Timeline. *)
Definition current (k : string) (e : option HistoryEntry) : result Z :=
  match e with
  | None => Raise (KeyError (Msg.get_missing k))
  | Some e =>
      match value e with
      | None => Raise (KeyError (Msg.get_deleted k))
      | Some x => Return x
      end
  end.

(** What [get_from_snapshot] makes of the resolved entry of a non-empty
    Timeline. *)
Definition historical (k : string) (v : Z) (e : option HistoryEntry)
    : result (option Z) :=
  match e with
  | None => Return None
  | Some e =>
      match value e with
      | None => Raise (KeyError (Msg.deleted_at k v))
      | Some x => Return (Some x)
      end
  end.

(** The reference trace at the end of the module, and the map it builds. *)
Definition demo_ops : list op :=
  [Put "1" (Some 1); Put "2" (Some 2); Put "3" (Some 3); TakeSnapshot;
   Put "1" (Some 2); TakeSnapshot;
   Put "4" (Some 4); Put "3" (Some 4); TakeSnapshot].

Definition demo : SnapshottableMap := run demo_ops init.

Local Close Scope Z_scope.

(** * JsonValidator

    Shallow embedding of [src/json_validator.py].  A Python [str] is a
    sequence of Unicode code points, here a list of [N]; the attribute
    [self.pos] is threaded through the parsing methods as a [nat], each
    method returning its Boolean together with the new position. *)

(** The code points of the characters the validator looks for: the double
    quote, the colon, the comma, the braces, the brackets and the letter n. *)
Definition QUOTE : N := 34.
Definition COLON : N := 58.
Definition COMMA : N := 44.
Definition LBRACE : N := 123.
Definition RBRACE : N := 125.
Definition LBRACKET : N := 91.
Definition RBRACKET : N := 93.
Definition LETTER_N : N := 110.

(** The code points of a string written in ASCII. *)
Definition codes (s : string) : list N :=
  Ascii.N_of_ascii <$> String.list_ascii_of_string s.

(** [c.isspace()] for a single character: the code points the interpreter
    classifies as whitespace. *)
Definition isspace (c : N) : bool :=
  bool_decide (9 ≤ c ≤ 13)%N || bool_decide (28 ≤ c ≤ 32)%N
  || bool_decide (c = 133)%N || bool_decide (c = 160)%N
  || bool_decide (c = 5760)%N || bool_decide (8192 ≤ c ≤ 8202)%N
  || bool_decide (c = 8232)%N || bool_decide (c = 8233)%N
  || bool_decide (c = 8239)%N || bool_decide (c = 8287)%N
  || bool_decide (c = 12288)%N.

Section JsonValidator.

(** The attributes [self.json_string] and [self.allow_arrays], which the
    parsing methods only read. *)
Variable json_string : list N.
Variable allow_arrays : bool.

(** [_skip_whitespace]: the position after the loop. *)
Equations? _skip_whitespace (pos : nat) : nat
    by wf (length json_string - pos)%nat lt :=
  _skip_whitespace pos with inspect (json_string !! pos) => {
    | exist _ None _ => pos
    | exist _ (Some c) Hc with isspace c => {
      | true => _skip_whitespace (pos + 1)
      | false => pos
      }
    }.
Proof. apply lookup_lt_Some in Hc. lia. Qed.

(** [_parse_literal] *)
Definition _parse_literal (literal : list N) (pos : nat) : bool * nat :=
  if bool_decide (take (length literal) (drop pos json_string) = literal)
  then (true, pos + length literal)
  else (false, pos).

(** The [while] loop of [_parse_string]. *)
Equations? _parse_string_loop (pos : nat) : nat
    by wf (length json_string - pos)%nat lt :=
  _parse_string_loop pos with inspect (json_string !! pos) => {
    | exist _ None _ => pos
    | exist _ (Some c) Hc with bool_decide (c ≠ QUOTE) => {
      | false => pos
      | true with bool_decide (c = QUOTE)
                  && bool_decide (pos + 1 < length json_string)%nat => {
        | true => _parse_string_loop (pos + 2)
        | false => _parse_string_loop (pos + 1)
        }
      }
    }.
Proof. all: apply lookup_lt_Some in Hc; lia. Qed.

(** [_parse_string]: the guard [self.pos >= len(...) or ...[self.pos] != c]
    holds exactly when the lookup at [pos] is not [Some c]. *)
Definition _parse_string (pos : nat) : bool * nat :=
  if bool_decide (json_string !! pos ≠ Some QUOTE) then (false, pos)
  else
    let pos := (pos + 1)%nat in
    let pos := _parse_string_loop pos in
    if bool_decide (json_string !! pos ≠ Some QUOTE) then (false, pos)
    else (true, (pos + 1)%nat).

(** The methods below call each other recursively.  They take a budget: the
    recursive [_parse_value] is passed as a function, [_parse_value] itself
    recurses on the number of nested calls it may still make, and the loop of
    [_parse_comma_separated_values] on the number of iterations it may still
    make.  [None] says that the budget ran out. *)

(** [_parse_key_value_pair] *)
Definition _parse_key_value_pair (_parse_value : nat → option (bool * nat))
    (pos : nat) : option (bool * nat) :=
  let pos := _skip_whitespace pos in
  let '(ok, pos) := _parse_string pos in
  if negb ok then Some (false, pos)
  else
    let pos := _skip_whitespace pos in
    if bool_decide (json_string !! pos ≠ Some COLON) then Some (false, pos)
    else
      let pos := (pos + 1)%nat in
      let pos := _skip_whitespace pos in
      _parse_value pos.

(** [_parse_comma_separated_values], with [parse_func] the bound method it
    is given. *)
Fixpoint _parse_comma_separated_values (parse_func : nat → option (bool * nat))
    (end_char : N) (iterations : nat) (pos : nat) : option (bool * nat) :=
  match iterations with
  | O => None
  | S iterations =>
      if bool_decide (pos < length json_string)%nat then
        let pos := _skip_whitespace pos in
        match parse_func pos with
        | None => None
        | Some (false, pos) => Some (false, pos)
        | Some (true, pos) =>
            let pos := _skip_whitespace pos in
            if bool_decide (json_string !! pos = Some end_char)
            then Some (true, (pos + 1)%nat)
            else if bool_decide (json_string !! pos ≠ Some COMMA)
            then Some (false, pos)
            else _parse_comma_separated_values parse_func end_char iterations
                   (pos + 1)%nat
        end
      else Some (false, pos)
  end.

(** [_parse_object] *)
Definition _parse_object (_parse_value : nat → option (bool * nat))
    (pos : nat) : option (bool * nat) :=
  if bool_decide (json_string !! pos ≠ Some LBRACE) then Some (false, pos)
  else
    let pos := (pos + 1)%nat in
    let pos := _skip_whitespace pos in
    if bool_decide (json_string !! pos = Some RBRACE)
    then Some (true, (pos + 1)%nat)
    else _parse_comma_separated_values (_parse_key_value_pair _parse_value)
           RBRACE (S (length json_string)) pos.

(** [_parse_array] *)
Definition _parse_array (_parse_value : nat → option (bool * nat))
    (pos : nat) : option (bool * nat) :=
  if bool_decide (json_string !! pos ≠ Some LBRACKET) then Some (false, pos)
  else
    let pos := (pos + 1)%nat in
    let pos := _skip_whitespace pos in
    if bool_decide (json_string !! pos = Some RBRACKET)
    then Some (true, (pos + 1)%nat)
    else _parse_comma_separated_values _parse_value RBRACKET
           (S (length json_string)) pos.

(** [_parse_value], with [depth] the number of nested [_parse_value] calls
    still allowed.  The interpreter's own limit on the depth of recursion is
    not modelled: [validate] below allows as many nested calls as the input
    can need. *)
Fixpoint _parse_value (depth : nat) (pos : nat) : option (bool * nat) :=
  match depth with
  | O => None
  | S depth =>
      let pos := _skip_whitespace pos in
      match json_string !! pos with
      | None => Some (false, pos)
      | Some char =>
          if bool_decide (char = LBRACE)
          then _parse_object (_parse_value depth) pos
          else if bool_decide (char = QUOTE)
          then Some (_parse_string pos)
          else if bool_decide (char = LETTER_N)
          then Some (_parse_literal (codes "null") pos)
          else if allow_arrays && bool_decide (char = LBRACKET)
          then _parse_array (_parse_value depth) pos
          else Some (false, pos)
      end
  end.

End JsonValidator.

(** [validate] with a given budget of nested [_parse_value] calls: the
    attributes are set, the value is parsed from position 0, whitespace is
    skipped and the end of the string is tested. *)
Definition validate_within (depth : nat) (json_string : list N)
    (allow_arrays : bool) : option bool :=
  match _parse_value json_string allow_arrays depth 0 with
  | None => None
  | Some (is_valid, pos) =>
      let pos := _skip_whitespace json_string pos in
      Some (is_valid && bool_decide (pos = length json_string))
  end.

(** [validate]: no value nests deeper than the string is long, so this
    budget is never used up (see [validate_budget]). *)
Definition validate (json_string : list N) (allow_arrays : bool) : option bool :=
  validate_within (S (length json_string)) json_string allow_arrays.

(** The input between positions [p] and [q]: the slice [json_string[p:q]]. *)
Definition sub (s : list N) (p q : nat) : list N := take (q - p) (drop p s).

(** A run of whitespace characters. *)
Definition whitespace (ws : list N) : Prop := Forall (λ c, isspace c = true) ws.

(** ** The language of the validator *)

(** A string token: a double quote, any characters but the double quote,
    and a double quote. *)
Inductive StringToken : list N → Prop :=
| string_token body :
    QUOTE ∉ body → StringToken ([QUOTE] ++ body ++ [QUOTE]).

(** Items separated by commas and closed by [end_char], with whitespace
    allowed around each item. *)
Inductive Separated (Item : list N → Prop) (end_char : N) : list N → Prop :=
| separated_last ws1 item ws2 :
    whitespace ws1 → Item item → whitespace ws2 →
    Separated Item end_char (ws1 ++ item ++ ws2 ++ [end_char])
| separated_more ws1 item ws2 rest :
    whitespace ws1 → Item item → whitespace ws2 →
    Separated Item end_char rest →
    Separated Item end_char (ws1 ++ item ++ ws2 ++ [COMMA] ++ rest).

(** A key, a colon and a value, with whitespace allowed around the colon. *)
Inductive Pair (Value : list N → Prop) : list N → Prop :=
| pair_intro key ws1 ws2 val :
    StringToken key → whitespace ws1 → whitespace ws2 → Value val →
    Pair Value (key ++ ws1 ++ [COLON] ++ ws2 ++ val).

(** A value: [null], a string token, an object or, when [arrays] is set, an
    array. *)
#[warnings="-register-all"] Inductive Value (arrays : bool) : list N → Prop :=
| value_null : Value arrays (codes "null")
| value_string tok : StringToken tok → Value arrays tok
| value_object_empty ws :
    whitespace ws → Value arrays ([LBRACE] ++ ws ++ [RBRACE])
| value_object members :
    Separated (Pair (Value arrays)) RBRACE members →
    Value arrays ([LBRACE] ++ members)
| value_array_empty ws :
    arrays = true → whitespace ws →
    Value arrays ([LBRACKET] ++ ws ++ [RBRACKET])
| value_array elements :
    arrays = true → Separated (Value arrays) RBRACKET elements →
    Value arrays ([LBRACKET] ++ elements).

(** A document: one value with whitespace allowed before and after it. *)
Definition Document (arrays : bool) (s : list N) : Prop :=
  ∃ ws1 v ws2, s = ws1 ++ v ++ ws2
               ∧ whitespace ws1 ∧ Value arrays v ∧ whitespace ws2.

(** A parsing method never moves the position back, nor beyond the end of
    the input. *)
Definition advances (s : list N) (f : nat → option (bool * nat)) : Prop :=
  ∀ p b q, f p = Some (b, q) → p ≤ q ∧ (p ≤ length s → q ≤ length s).

(** [g] answers as [f] wherever [f] answers. *)
Definition extends (f g : nat → option (bool * nat)) : Prop :=
  ∀ p r, f p = Some r → g p = Some r.

(** [f] accepts nothing but a token of [G] after optional whitespace, and
    stops right after it. *)
Definition parses (s : list N) (G : list N → Prop)
    (f : nat → option (bool * nat)) : Prop :=
  ∀ p q, p ≤ length s → f p = Some (true, q) →
         p ≤ q ≤ length s
         ∧ ∃ ws v, whitespace ws ∧ G v ∧ sub s p q = ws ++ v.

(** [g] accepts, up to the same position, whatever [f] accepts. *)
Definition accepts_more (f g : nat → option (bool * nat)) : Prop :=
  ∀ p q, f p = Some (true, q) → g p = Some (true, q).

(** A text written with the apostrophe standing for the double quote. *)
Definition text (s : string) : list N :=
  (λ c, if bool_decide (c = 39%N) then QUOTE else c) <$> codes s.

Local Open Scope Z_scope.

(** * Verification *)

(** ** The reference trace *)

Example str_neg : str (-12) = Return "-12"%string.
Proof. vm_compute. reflexivity. Qed.

Example demo_snapshots : snapshot_ids (responses demo_ops init) = [0; 1; 2].
Proof. reflexivity. Qed.

Example demo_1 :
  get_from_snapshot "1" 0 demo = Return (Some 1)
  ∧ get_from_snapshot "1" 1 demo = Return (Some 2)
  ∧ get_from_snapshot "1" 2 demo = Return (Some 2).
Proof. vm_compute. auto. Qed.

Example demo_4 :
  get_from_snapshot "4" 0 demo = Return None
  ∧ get_from_snapshot "4" 1 demo = Return None
  ∧ get_from_snapshot "4" 2 demo = Return (Some 4).
Proof. vm_compute. auto. Qed.

Example demo_errors :
  get_from_snapshot "5" 2 demo
    = Raise (KeyError "Key '5' never existed, so it's not in snapshot 2.")
  ∧ get_from_snapshot "1" 3 demo
    = Raise (IndexError "Invalid snap_id: 3. 0 to 2.")
  ∧ get_from_snapshot "1" 0 init
    = Raise (IndexError "Invalid snap_id: 0. No snapshots taken yet.").
Proof. vm_compute. auto. Qed.

(** ** The write path *)

Lemma set_last_value_snoc h e e' v :
  set_last_value (h ++ [e']) e v = h ++ [{| snap_id := snap_id e; value := v |}].
Proof.
  unfold set_last_value. rewrite length_app. simpl.
  replace (pred (length h + 1)) with (length h + 0)%nat by lia.
  by rewrite insert_app_r.
Qed.

Lemma kept_snoc N h v : kept N (h ++ [{| snap_id := N; value := v |}]) = h.
Proof.
  unfold kept. rewrite last_snoc. simpl. rewrite bool_decide_eq_true_2 by done.
  rewrite length_app. simpl.
  replace (pred (length h + 1)) with (length h) by lia.
  by rewrite take_app_length.
Qed.

Lemma kept_prefix N h : kept N h `prefix_of` h.
Proof.
  unfold kept. destruct (last h); [case_bool_decide|]; try done.
  apply prefix_take.
Qed.

(** The two branches of [put] build the same list: the kept entries followed
    by one entry tagged with the pending version. *)
Lemma put_unfold k v m :
  put k v m =
  {| _key_history_store :=
       <[k := kept (_next_snap_id m) (timeline k m)
              ++ [{| snap_id := _next_snap_id m; value := v |}]]>
         (_key_history_store m);
     _next_snap_id := _next_snap_id m |}.
Proof.
  unfold put, kept, timeline. f_equal. f_equal.
  destruct (last _) as [e|] eqn:Hlast; [|done].
  case_bool_decide as Hv; [|done].
  apply last_Some in Hlast as [h0 ->].
  rewrite set_last_value_snoc, length_app. simpl.
  replace (pred (length h0 + 1)) with (length h0) by lia.
  by rewrite take_app_length, Hv.
Qed.

Lemma put_next k v m : _next_snap_id (put k v m) = _next_snap_id m.
Proof. done. Qed.

Lemma put_timeline k v m :
  timeline k (put k v m)
  = kept (_next_snap_id m) (timeline k m)
      ++ [{| snap_id := _next_snap_id m; value := v |}].
Proof.
  rewrite put_unfold. unfold timeline at 1. simpl. by rewrite lookup_insert_eq.
Qed.

Lemma put_lookup_ne k k' v m :
  k ≠ k' → _key_history_store (put k v m) !! k' = _key_history_store m !! k'.
Proof. intros. rewrite put_unfold. simpl. by rewrite lookup_insert_ne. Qed.

Lemma put_timeline_ne k k' v m :
  k ≠ k' → timeline k' (put k v m) = timeline k' m.
Proof. intros. unfold timeline. by rewrite put_lookup_ne. Qed.

Lemma put_put k v1 v2 m : put k v2 (put k v1 m) = put k v2 m.
Proof.
  rewrite (put_unfold k v2 (put k v1 m)), put_timeline, put_next, kept_snoc.
  rewrite (put_unfold k v2 m), (put_unfold k v1 m). simpl.
  by rewrite insert_insert_eq.
Qed.

Lemma delete_next k m : _next_snap_id (delete k m) = _next_snap_id m.
Proof. unfold delete. by destruct (_ !! _). Qed.

Lemma timeline_lookup k m h :
  _key_history_store m !! k = Some h → timeline k m = h.
Proof. unfold timeline. by intros ->. Qed.

Lemma run_app ops1 ops2 m : run (ops1 ++ ops2) m = run ops2 (run ops1 m).
Proof. apply foldl_app. Qed.

Lemma run_snoc ops o m : run (ops ++ [o]) m = step (run ops m) o.
Proof. by rewrite run_app. Qed.

(** ** Coalescing *)

Lemma agree_refl k m : agree_up_to_pending k m m.
Proof. by split_and!. Qed.

Lemma agree_put_same k x m1 m2 :
  agree_up_to_pending k m1 m2 → put k x m1 = put k x m2.
Proof.
  intros (HN & Hother & Hkept). rewrite !put_unfold, Hkept, HN.
  f_equal. apply map_eq. intros k'.
  destruct (decide (k = k')) as [<-|Hne].
  - by rewrite !lookup_insert_eq.
  - rewrite !lookup_insert_ne by done. by apply Hother.
Qed.

Lemma agree_put_left k x m1 m2 :
  agree_up_to_pending k m1 m2 → agree_up_to_pending k (put k x m1) m2.
Proof.
  intros (HN & Hother & Hkept). split_and!.
  - by rewrite put_next.
  - intros k' Hne. rewrite put_lookup_ne by done. by apply Hother.
  - by rewrite put_timeline, put_next, kept_snoc.
Qed.

Lemma agree_sym k m1 m2 :
  agree_up_to_pending k m1 m2 → agree_up_to_pending k m2 m1.
Proof.
  intros (HN & Hother & Hkept). split_and!; [done| |done].
  intros k' Hne. symmetry. by apply Hother.
Qed.

Lemma agree_put_other k k' x m1 m2 :
  k' ≠ k → agree_up_to_pending k m1 m2 →
  agree_up_to_pending k (put k' x m1) (put k' x m2).
Proof.
  intros Hne (HN & Hother & Hkept). split_and!.
  - by rewrite !put_next.
  - intros k'' Hne'. rewrite !put_unfold. simpl. unfold timeline.
    rewrite (Hother k' Hne), HN.
    destruct (decide (k' = k'')) as [<-|Hne''].
    + by rewrite !lookup_insert_eq.
    + rewrite !lookup_insert_ne by done. by apply Hother.
  - by rewrite !put_timeline_ne, !put_next.
Qed.

(** Every call but [take_snapshot] keeps two such maps in agreement. *)
Lemma agree_step k m1 m2 o :
  is_take_snapshot o = false → agree_up_to_pending k m1 m2 →
  agree_up_to_pending k (step m1 o) (step m2 o).
Proof.
  intros Ho Hagree. destruct o as [k' x|k'| | |]; try done.
  - change (agree_up_to_pending k (put k' x m1) (put k' x m2)).
    destruct (decide (k' = k)) as [->|Hne].
    + rewrite (agree_put_same k x m1 m2 Hagree). apply agree_refl.
    + by apply agree_put_other.
  - change (agree_up_to_pending k (delete k' m1) (delete k' m2)).
    unfold delete. destruct (decide (k' = k)) as [->|Hne].
    + destruct (_key_history_store m1 !! k), (_key_history_store m2 !! k).
      * rewrite (agree_put_same k None m1 m2 Hagree). apply agree_refl.
      * by apply agree_put_left.
      * by apply agree_sym, agree_put_left, agree_sym.
      * done.
    + destruct Hagree as (HN & Hother & Hkept). rewrite (Hother k' Hne).
      destruct (_key_history_store m2 !! k'); [|done].
      by apply agree_put_other.
Qed.

Lemma agree_run k ops m1 m2 :
  TakeSnapshot ∉ ops → agree_up_to_pending k m1 m2 →
  agree_up_to_pending k (run ops m1) (run ops m2).
Proof.
  revert m1 m2. induction ops as [|o ops IH]; intros m1 m2 Hno Hagree; [done|].
  apply (IH (step m1 o) (step m2 o)).
  - intros Hin. apply Hno. by right.
  - apply agree_step; [|done]. destruct o; try done.
    exfalso. apply Hno. by left.
Qed.

(** C7. Several [put(k, _)] calls in a row, with no [take_snapshot] between
    them, leave the map in exactly the state a single [put] of the last value
    produces; hence the key's Timeline is the same list, and every later
    sequence of calls gets the same responses.  The same holds with any other
    calls but [take_snapshot] between the [put]s: the earlier [put] leaves no
    trace in the state after the later one. *)
Theorem coalescing_invisible (m : SnapshottableMap) (k : string)
    (vs : list (option Z)) (v : option Z) :
  foldl (λ m x, put k x m) m (vs ++ [v]) = put k v m
  ∧ timeline k (foldl (λ m x, put k x m) m (vs ++ [v])) = timeline k (put k v m)
  ∧ (∀ ops, responses ops (foldl (λ m x, put k x m) m (vs ++ [v]))
            = responses ops (put k v m))
  ∧ (∀ x mid, TakeSnapshot ∉ mid →
              run (mid ++ [Put k v]) (put k x m) = run (mid ++ [Put k v]) m).
Proof.
  assert (foldl (λ m x, put k x m) m (vs ++ [v]) = put k v m) as Heq.
  { rewrite foldl_app. simpl. revert m.
    induction vs as [|x vs IH]; intros m; simpl; [done|].
    rewrite IH. apply put_put. }
  rewrite Heq. split_and!; [done..|].
  intros x mid Hno. rewrite !run_snoc.
  apply (agree_put_same k v). apply agree_run; [done|].
  apply agree_put_left, agree_refl.
Qed.

Lemma coalescing_invisible_witness :
  (TakeSnapshot ∉ [Put "b" (Some 5); Delete "a"; Get "a"])
  ∧ (run ([Put "b" (Some 5); Delete "a"; Get "a"] ++ [Put "a" (Some 2)])
         (put "a" (Some 1) init)
     = run ([Put "b" (Some 5); Delete "a"; Get "a"] ++ [Put "a" (Some 2)]) init).
Proof.
  assert (TakeSnapshot ∉ [Put "b" (Some 5); Delete "a"; Get "a"]) as H.
  { intros Hin. repeat (apply elem_of_cons in Hin as [Hin|Hin]; [discriminate|]).
    by apply elem_of_nil in Hin. }
  split; [exact H|].
  exact (proj2 (proj2 (proj2 (coalescing_invisible init "a" [] (Some 2))))
           (Some 1) [Put "b" (Some 5); Delete "a"; Get "a"] H).
Defined.

(** ** Deleting *)

(** C9. [delete(k)] on a key that was never written returns the very same
    map (all Timelines and the counter), and on a key that has a Timeline it
    is [put(k, None)].  [delete] is a total function: it never fails. *)
Theorem delete_unseen_noop (k : string) (m : SnapshottableMap) :
  (_key_history_store m !! k = None → delete k m = m)
  ∧ (is_Some (_key_history_store m !! k) → delete k m = put k None m).
Proof.
  unfold delete. split.
  - by intros ->.
  - by intros [h ->].
Qed.

Lemma delete_unseen_noop_witness :
  (_key_history_store init !! "a"%string = None
   ∧ delete "a" init = init)
  ∧ (is_Some (_key_history_store (put "a" (Some 1) init) !! "a"%string)
     ∧ delete "a" (put "a" (Some 1) init) = put "a" None (put "a" (Some 1) init)).
Proof.
  split.
  - split; [reflexivity|].
    apply (proj1 (delete_unseen_noop "a" init)). reflexivity.
  - assert (is_Some (_key_history_store (put "a" (Some 1) init) !! "a"%string))
      as H by (vm_compute; eauto).
    split; [exact H|].
    exact (proj2 (delete_unseen_noop "a" (put "a" (Some 1) init)) H).
Defined.

(** ** The version clock *)

Lemma step_next_other m o :
  is_take_snapshot o = false → _next_snap_id (step m o) = _next_snap_id m.
Proof.
  destruct o; simpl; try done; intros _.
  apply delete_next.
Qed.

Lemma step_next m o :
  _next_snap_id (step m o)
  = _next_snap_id m + (if is_take_snapshot o then 1 else 0).
Proof.
  destruct (is_take_snapshot o) eqn:Ho.
  - by destruct o.
  - rewrite step_next_other by done. lia.
Qed.

Lemma run_next ops m :
  _next_snap_id (run ops m)
  = _next_snap_id m + Z.of_nat (length (filter is_take_snapshot ops)).
Proof.
  revert m. induction ops as [|o ops IH]; intros m; simpl; [lia|].
  change (run (o :: ops) m) with (run ops (step m o)).
  rewrite IH, step_next, filter_cons.
  destruct o; simpl; lia.
Qed.

Lemma run_next_le ops m : _next_snap_id m <= _next_snap_id (run ops m).
Proof. rewrite run_next. lia. Qed.

(** C5. [take_snapshot] returns the counter and adds one to it; no other
    call changes the counter; so the identifiers returned along any sequence
    of calls on a new map are 0, 1, 2, ... in order, without repeats or gaps,
    whatever is called in between. *)
Theorem monotonic_versions :
  (∀ m, take_snapshot m
        = (_next_snap_id m,
           {| _key_history_store := _key_history_store m;
              _next_snap_id := _next_snap_id m + 1 |}))
  ∧ (∀ m k v, _next_snap_id (put k v m) = _next_snap_id m)
  ∧ (∀ m k, _next_snap_id (delete k m) = _next_snap_id m)
  ∧ (∀ m o, is_take_snapshot o = false →
            _next_snap_id (snd (call o m)) = _next_snap_id m)
  ∧ (∀ ops m, snapshot_ids (responses ops m)
              = seqZ (_next_snap_id m)
                  (Z.of_nat (length (filter is_take_snapshot ops))))
  ∧ (∀ ops, snapshot_ids (responses ops init)
            = seqZ 0 (Z.of_nat (length (filter is_take_snapshot ops))))
  ∧ (∀ ops m, NoDup (snapshot_ids (responses ops m))).
Proof.
  assert (∀ ops m, snapshot_ids (responses ops m)
              = seqZ (_next_snap_id m)
                  (Z.of_nat (length (filter is_take_snapshot ops)))) as Hids.
  { induction ops as [|o ops IH]; intros m; [done|].
    simpl. rewrite filter_cons. unfold snapshot_ids in *. simpl.
    rewrite IH. fold (step m o). rewrite step_next.
    destruct o; simpl; rewrite ?Z.add_0_r; try done.
    rewrite (seqZ_cons (_next_snap_id m)) by lia.
    f_equal. f_equal; lia. }
  split_and!; intros;
    first [done | apply delete_next | by apply step_next_other
          | apply (Hids _ init) | rewrite Hids; apply NoDup_seqZ].
Qed.

Lemma monotonic_versions_witness :
  is_take_snapshot (Put "a" (Some 1)) = false
  ∧ _next_snap_id (snd (call (Put "a" (Some 1)) init)) = _next_snap_id init.
Proof.
  split; [reflexivity|].
  apply (proj1 (proj2 (proj2 (proj2 monotonic_versions)))). reflexivity.
Defined.

(** ** The binary search *)

Lemma py_getitem_in_range {A} (l : list A) (i : Z) :
  0 <= i < Z.of_nat (length l) →
  ∃ x, l !! Z.to_nat i = Some x ∧ py_getitem l i = Return x.
Proof.
  intros Hi. unfold py_getitem. cbv zeta.
  rewrite (bool_decide_eq_false_2 (i < 0)) by lia.
  rewrite bool_decide_eq_true_2 by lia.
  destruct (lookup_lt_is_Some_2 l (Z.to_nat i)) as [x Hx]; [lia|].
  exists x. by rewrite Hx.
Qed.

Lemma bsearch_loop_eq history snap left_ right_ idx :
  bsearch_loop history snap left_ right_ idx =
  if bool_decide (left_ <= right_) then
    match py_getitem history ((left_ + right_) `div` 2) with
    | Raise e => Raise e
    | Return entry =>
        if bool_decide (snap_id entry <= snap)
        then bsearch_loop history snap ((left_ + right_) `div` 2 + 1) right_
               ((left_ + right_) `div` 2)
        else bsearch_loop history snap left_ ((left_ + right_) `div` 2 - 1) idx
    end
  else Return idx.
Proof.
  funelim (bsearch_loop history snap left_ right_ idx); clear Heqcall;
    repeat match goal with
      | H : bool_decide _ = _ |- _ => rewrite H
      | H : py_getitem _ _ = _ |- _ => rewrite H
      end; done.
Qed.

Lemma mid_bounds (left_ right_ : Z) :
  left_ <= right_ → left_ <= (left_ + right_) `div` 2 <= right_.
Proof.
  intros. split; [apply Z.div_le_lower_bound | apply Z.div_le_upper_bound]; lia.
Qed.


Lemma strictly_increasing_lookup h (i j : nat) a b :
  strictly_increasing h → h !! i = Some a → h !! j = Some b → (i < j)%nat →
  snap_id a < snap_id b.
Proof.
  unfold strictly_increasing. intros Hs. revert i j.
  induction Hs as [|x l Hs IH Hx]; intros i j Hi Hj Hij; [done|].
  destruct j as [|j]; [lia|]. simpl in Hj.
  destruct i as [|i]; simpl in Hi.
  - injection Hi as <-. by eapply Forall_lookup_1 in Hx.
  - eapply IH; eauto. lia.
Qed.

(** The loop invariant on a strictly increasing Timeline: every entry left
    of [left_] is at or before the snapshot, every entry right of [right_]
    is after it, and [idx] is [left_ - 1]. *)
Lemma bsearch_loop_sorted history snap (n : nat) :
  strictly_increasing history →
  ∀ left_ right_ idx,
    (Z.to_nat (right_ - left_ + 1) ≤ n)%nat →
    0 <= left_ → right_ < Z.of_nat (length history) → left_ <= right_ + 1 →
    idx = left_ - 1 →
    (∀ (i : nat) e, Z.of_nat i < left_ → history !! i = Some e →
                    snap_id e <= snap) →
    (∀ (i : nat) e, right_ < Z.of_nat i → history !! i = Some e →
                    snap < snap_id e) →
    ∃ r, bsearch_loop history snap left_ right_ idx = Return r
         ∧ -1 <= r < Z.of_nat (length history)
         ∧ (∀ (i : nat) e, Z.of_nat i <= r → history !! i = Some e →
                           snap_id e <= snap)
         ∧ (∀ (i : nat) e, r < Z.of_nat i → history !! i = Some e →
                           snap < snap_id e).
Proof.
  intros Hs.
  induction n as [|n IH]; intros left_ right_ idx Hn Hl Hr Hlr -> Hlo Hhi;
    rewrite bsearch_loop_eq; case_bool_decide as Hle; try lia.
  1, 3: exists (left_ - 1); split_and!; try done; try lia;
      [intros i e ?; apply Hlo; lia | intros i e ?; apply Hhi; lia].
  pose proof (mid_bounds _ _ Hle) as Hmid.
  destruct (py_getitem_in_range history ((left_ + right_) `div` 2))
    as (entry & Hentry & ->); [lia|].
  case_bool_decide as Hcmp.
  - apply IH; try lia; try done.
    intros i e Hi He.
    destruct (decide (i = Z.to_nat ((left_ + right_) `div` 2))) as [->|Hne].
    + assert (e = entry) as -> by congruence. done.
    + pose proof (strictly_increasing_lookup _ i _ e entry Hs He Hentry).
      lia.
  - apply IH; try lia; try done.
    intros i e Hi He.
    destruct (decide (i = Z.to_nat ((left_ + right_) `div` 2))) as [->|Hne].
    + assert (e = entry) as -> by congruence. lia.
    + pose proof (strictly_increasing_lookup _ _ i entry e Hs Hentry He).
      lia.
Qed.

Lemma linear_scan_from_spec h v :
  ∀ i0 idx, idx < i0 →
    let r := linear_scan_from h v i0 idx in
    (r = idx ∨ i0 <= r < i0 + Z.of_nat (length h))
    ∧ (r ≠ idx → ∃ e, h !! Z.to_nat (r - i0) = Some e ∧ snap_id e <= v)
    ∧ (∀ (j : nat) e, h !! j = Some e → r < i0 + Z.of_nat j → v < snap_id e).
Proof.
  induction h as [|e h IH]; intros i0 idx Hidx; simpl.
  { split_and!; [by left | done | done]. }
  set (idx' := if bool_decide (snap_id e <= v) then i0 else idx).
  assert (idx' < i0 + 1) as Hidx' by (unfold idx'; case_bool_decide; lia).
  destruct (IH (i0 + 1) idx' Hidx') as (Hr & Hfound & Habove).
  set (r := linear_scan_from h v (i0 + 1) idx') in *.
  split_and!.
  - unfold idx' in *. case_bool_decide; lia.
  - intros Hne. destruct (decide (r = idx')) as [Heq|Hne'].
    + unfold idx' in Heq. case_bool_decide; [|congruence].
      exists e. rewrite Heq, Z.sub_diag. done.
    + destruct (Hfound Hne') as (e' & He' & Hle).
      exists e'. split; [|done].
      replace (Z.to_nat (r - i0)) with (S (Z.to_nat (r - (i0 + 1)))) by lia.
      done.
  - intros [|j] e' He' Hlt; simpl in He'.
    + injection He' as <-. unfold idx' in *. case_bool_decide; lia.
    + apply (Habove j e' He'). lia.
Qed.

Lemma linear_scan_spec h v :
  -1 <= linear_scan h v < Z.of_nat (length h)
  ∧ (linear_scan h v ≠ -1 →
     ∃ e, h !! Z.to_nat (linear_scan h v) = Some e ∧ snap_id e <= v)
  ∧ (∀ (j : nat) e, h !! j = Some e → linear_scan h v < Z.of_nat j →
                    v < snap_id e).
Proof.
  destruct (linear_scan_from_spec h v 0 (-1)) as (Hr & Hfound & Habove); [lia|].
  fold (linear_scan h v) in *. split; [lia|split].
  - intros Hne. destruct (Hfound Hne) as (e & He & Hle).
    rewrite Z.sub_0_r in He. eauto.
  - intros j e He Hlt. apply (Habove j e He). lia.
Qed.

Lemma bsearch_sorted history snap :
  strictly_increasing history →
  ∃ r, bsearch history snap = Return r
       ∧ -1 <= r < Z.of_nat (length history)
       ∧ (∀ (i : nat) e, Z.of_nat i <= r → history !! i = Some e →
                         snap_id e <= snap)
       ∧ (∀ (i : nat) e, r < Z.of_nat i → history !! i = Some e →
                         snap < snap_id e).
Proof.
  intros Hs. unfold bsearch.
  apply (bsearch_loop_sorted history snap (length history) Hs); try lia.
  intros i e Hi He. apply lookup_lt_Some in He. lia.
Qed.


(** C8. On a Timeline in strictly increasing version order the two-pointer
    search returns the index that a linear scan for the rightmost entry with
    version at most [v] finds, and that index is -1 exactly when no entry has
    a version at most [v]. *)
Theorem binary_search_equivalence (history : list HistoryEntry) (v : Z) :
  strictly_increasing history →
  bsearch history v = Return (linear_scan history v)
  ∧ (linear_scan history v = -1 ↔ ∀ e, e ∈ history → v < snap_id e).
Proof.
  intros Hs.
  destruct (bsearch_sorted history v Hs) as (r & -> & Hr & Hle & Hgt).
  destruct (linear_scan_spec history v) as (Hr' & Hfound & Habove).
  split.
  - f_equal.
    destruct (Z.lt_trichotomy r (linear_scan history v)) as [Hlt|[Heq|Hlt]];
      [|done|].
    + destruct Hfound as (e & He & Hev); [lia|].
      assert (v < snap_id e)
        by (apply (Hgt (Z.to_nat (linear_scan history v)) e); [lia|done]).
      lia.
    + destruct (lookup_lt_is_Some_2 history (Z.to_nat r)) as [e He]; [lia|].
      assert (snap_id e <= v) by (apply (Hle (Z.to_nat r) e); [lia|done]).
      assert (v < snap_id e) by (apply (Habove (Z.to_nat r) e He); lia).
      lia.
  - split.
    + intros Hm1 e [j He]%list_elem_of_lookup. apply (Habove j e He). lia.
    + intros Hall. destruct (decide (linear_scan history v = -1)); [done|].
      destruct Hfound as (e & He & Hev); [done|].
      apply list_elem_of_lookup_2 in He. apply Hall in He. lia.
Qed.

Lemma binary_search_equivalence_witness :
  let h := [ {| snap_id := 0; value := Some 1 |};
             {| snap_id := 2; value := None |};
             {| snap_id := 5; value := Some 3 |} ] in
  strictly_increasing h
  ∧ bsearch h 3 = Return (linear_scan h 3)
  ∧ linear_scan h 3 = 1.
Proof.
  intros h.
  assert (strictly_increasing h) as Hs.
  { unfold h, strictly_increasing. repeat constructor; simpl; lia. }
  split; [exact Hs|]. split; [|reflexivity].
  exact (proj1 (binary_search_equivalence h 3 Hs)).
Defined.

(** ** The invariant of reachable maps *)

Lemma strictly_increasing_snoc h e :
  strictly_increasing h → Forall (λ x, snap_id x < snap_id e) h →
  strictly_increasing (h ++ [e]).
Proof.
  intros Hs Hlt. apply StronglySorted_app. split_and!; [|done|].
  - intros x1 x2 Hx1 ->%list_elem_of_singleton.
    by eapply Forall_forall in Hlt.
  - repeat constructor.
Qed.

Lemma strictly_increasing_prefix h1 h2 :
  h1 `prefix_of` h2 → strictly_increasing h2 → strictly_increasing h1.
Proof. intros [h ->]. apply StronglySorted_app_1_l. Qed.

Lemma strictly_increasing_NoDup h :
  strictly_increasing h → NoDup (snap_id <$> h).
Proof.
  induction 1 as [|x l Hs IH Hx]; simpl; constructor; [|done].
  intros (y & Heq & Hy)%list_elem_of_fmap.
  eapply Forall_forall in Hx; [|done]. lia.
Qed.

(** Below a pending version [N] that bounds the Timeline, the kept entries
    are all strictly before [N]. *)
Lemma kept_below N h :
  strictly_increasing h → Forall (λ e, 0 <= snap_id e <= N) h →
  Forall (λ e, 0 <= snap_id e < N) (kept N h).
Proof.
  intros Hs Hle. unfold kept.
  destruct (last h) as [e|] eqn:Hlast.
  2: { apply last_None in Hlast as ->. constructor. }
  apply last_Some in Hlast as [h0 ->].
  apply StronglySorted_app in Hs as (Hlt & _ & _).
  apply Forall_app in Hle as [Hle0 [He _]%Forall_cons].
  assert (Forall (λ x, 0 <= snap_id x < snap_id e) h0) as Hh0.
  { apply Forall_forall. intros x Hx.
    eapply Forall_forall in Hle0; [|done].
    specialize (Hlt x e Hx ltac:(by apply list_elem_of_singleton)). lia. }
  case_bool_decide as HN.
  - rewrite length_app. simpl.
    replace (pred (length h0 + 1)) with (length h0) by lia.
    rewrite take_app_length. by rewrite <- HN.
  - apply Forall_app. split.
    + eapply Forall_impl; [exact Hh0|]. simpl. lia.
    + repeat constructor; lia.
Qed.

Lemma wf_init : wf_map init.
Proof. split; [done|]. intros k h. simpl. by rewrite lookup_empty. Qed.

Lemma wf_timeline_of k m :
  wf_map m →
  strictly_increasing (timeline k m)
  ∧ Forall (λ e, 0 <= snap_id e <= _next_snap_id m) (timeline k m).
Proof.
  intros [_ Hwf]. unfold timeline.
  destruct (_ !! k) as [h|] eqn:Hk; simpl.
  - by destruct (Hwf k h Hk) as (_ & ? & ?).
  - split; constructor.
Qed.

Lemma wf_put k v m : wf_map m → wf_map (put k v m).
Proof.
  intros Hwf. pose proof Hwf as [HN Hall].
  destruct (wf_timeline_of k m Hwf) as [Hs Hle].
  pose proof (kept_below _ _ Hs Hle) as Hkept.
  split; [done|]. rewrite put_next. intros k' h.
  destruct (decide (k = k')) as [<-|Hne].
  - rewrite put_unfold. simpl. rewrite lookup_insert_eq. intros [= <-].
    split_and!.
    + by destruct (kept _ _).
    + apply strictly_increasing_snoc.
      * eapply strictly_increasing_prefix; [apply kept_prefix|done].
      * eapply Forall_impl; [exact Hkept|]. simpl. lia.
    + apply Forall_app. split.
      * eapply Forall_impl; [exact Hkept|]. simpl. lia.
      * repeat constructor; simpl; lia.
  - rewrite put_lookup_ne by done. apply Hall.
Qed.

Lemma wf_delete k m : wf_map m → wf_map (delete k m).
Proof. intros. unfold delete. destruct (_ !! _); [by apply wf_put|done]. Qed.

Lemma wf_take_snapshot m : wf_map m → wf_map (snd (take_snapshot m)).
Proof.
  intros [HN Hall]. split; simpl; [lia|].
  intros k h Hk. destruct (Hall k h Hk) as (? & ? & Hle).
  split_and!; [done..|].
  eapply Forall_impl; [exact Hle|]. simpl. lia.
Qed.

Lemma wf_step m o : wf_map m → wf_map (step m o).
Proof.
  intros Hwf. destruct o; unfold step; simpl;
    [by apply wf_put | by apply wf_delete | done
    | by apply wf_take_snapshot | done].
Qed.

Lemma wf_run ops m : wf_map m → wf_map (run ops m).
Proof.
  revert m. induction ops as [|o ops IH]; intros m Hwf; [done|].
  apply (IH (step m o)). by apply wf_step.
Qed.

Lemma wf_reachable ops : wf_map (run ops init).
Proof. apply wf_run, wf_init. Qed.

Lemma wf_lookup_timeline k m :
  wf_map m → timeline k m ≠ [] →
  _key_history_store m !! k = Some (timeline k m).
Proof.
  intros _. unfold timeline. by destruct (_ !! k).
Qed.

Lemma wf_lookup_None k m :
  wf_map m → _key_history_store m !! k = None ↔ timeline k m = [].
Proof.
  intros [_ Hall]. unfold timeline. destruct (_ !! k) as [h|] eqn:Hk; simpl.
  - destruct (Hall k h Hk) as (? & _). split; [done|by intros].
  - done.
Qed.

(** C6. In every state reached from the empty map by any sequence of calls,
    the versions of each key's Timeline strictly increase, so no two entries
    share a version.  This is because [put] overwrites the value of a last
    entry that carries the pending version and otherwise appends an entry
    tagged with the pending version. *)
Theorem coalescing_invariant :
  (∀ ops k, strictly_increasing (timeline k (run ops init))
            ∧ NoDup (snap_id <$> timeline k (run ops init)))
  ∧ (∀ m k v h0 e,
       timeline k m = h0 ++ [e] → snap_id e = _next_snap_id m →
       timeline k (put k v m) = h0 ++ [{| snap_id := snap_id e; value := v |}])
  ∧ (∀ m k v,
       (∀ e, last (timeline k m) = Some e → snap_id e ≠ _next_snap_id m) →
       timeline k (put k v m)
       = timeline k m ++ [{| snap_id := _next_snap_id m; value := v |}]).
Proof.
  split_and!.
  - intros ops k.
    destruct (wf_timeline_of k _ (wf_reachable ops)) as [Hs _].
    split; [done|]. by apply strictly_increasing_NoDup.
  - intros m k v h0 e Hh He. rewrite put_timeline, Hh, He.
    destruct e as [s x]. simpl in He. subst s. by rewrite kept_snoc.
  - intros m k v Hlast. rewrite put_timeline. f_equal.
    unfold kept. destruct (last _) as [e|]; [|done].
    rewrite bool_decide_eq_false_2; [done|]. by apply Hlast.
Qed.

Lemma coalescing_invariant_witness :
  let m := put "a" (Some 1) init in
  (timeline "a" m = [] ++ [{| snap_id := 0; value := Some 1 |}]
   ∧ 0 = _next_snap_id m
   ∧ timeline "a" (put "a" (Some 2) m) = [{| snap_id := 0; value := Some 2 |}])
  ∧ ((∀ e, last (timeline "a" init) = Some e → snap_id e ≠ _next_snap_id init)
     ∧ timeline "a" (put "a" (Some 1) init)
       = timeline "a" init ++ [{| snap_id := 0; value := Some 1 |}]).
Proof.
  intros m. split.
  - split; [reflexivity|]. split; [reflexivity|].
    apply (proj1 (proj2 coalescing_invariant) m "a" (Some 2) []
             {| snap_id := 0; value := Some 1 |}); reflexivity.
  - assert (∀ e, last (timeline "a" init) = Some e
                 → snap_id e ≠ _next_snap_id init) as H by (intros e [=]).
    split; [exact H|].
    exact (proj2 (proj2 coalescing_invariant) init "a" (Some 1) H).
Defined.

(** ** The read path *)

Lemma get_current k m : get k m = current k (last (timeline k m)).
Proof.
  unfold get, current, timeline. by destruct (_ !! k) as [h|].
Qed.

Lemma filter_all {A} (P : A → Prop) `{!∀ x, Decision (P x)} (l : list A) :
  Forall P l → filter P l = l.
Proof.
  induction 1 as [|x l Hx _ IH]; [done|].
  by rewrite filter_cons_True, IH.
Qed.

Lemma filter_none {A} (P : A → Prop) `{!∀ x, Decision (P x)} (l : list A) :
  Forall (λ x, ¬ P x) l → filter P l = [].
Proof.
  induction 1 as [|x l Hx _ IH]; [done|].
  by rewrite filter_cons_False.
Qed.

(** The entry at the index the search characterises is the resolved one. *)
Lemma resolve_index h v (r : nat) e :
  h !! r = Some e →
  (∀ (i : nat) x, (i ≤ r)%nat → h !! i = Some x → snap_id x <= v) →
  (∀ (i : nat) x, (r < i)%nat → h !! i = Some x → v < snap_id x) →
  resolve h v = Some e.
Proof.
  intros Hr Hle Hgt. unfold resolve.
  rewrite <- (take_drop (S r) h), filter_app.
  rewrite (filter_none _ (drop (S r) h)), app_nil_r.
  - rewrite filter_all.
    + rewrite last_lookup, length_take.
      apply lookup_lt_Some in Hr as Hlen.
      rewrite lookup_take_lt by lia.
      by replace (pred (S r `min` length h)) with r by lia.
    + apply Forall_lookup. intros i x [Hx Hi]%lookup_take_Some.
      apply (Hle i x); [lia|done].
  - apply Forall_lookup. intros i x Hx. rewrite lookup_drop in Hx.
    pose proof (Hgt (S r + i)%nat x ltac:(lia) Hx). lia.
Qed.

Lemma resolve_none h v :
  (∀ (i : nat) x, h !! i = Some x → v < snap_id x) → resolve h v = None.
Proof.
  intros Hgt. unfold resolve. rewrite filter_none; [done|].
  apply Forall_lookup. intros i x Hx. pose proof (Hgt i x Hx). lia.
Qed.

(** On a non-empty, strictly increasing Timeline and a valid snapshot
    identifier, [get_from_snapshot] answers from the resolved entry. *)
Lemma get_from_snapshot_resolve k v m h :
  0 <= v < _next_snap_id m →
  _key_history_store m !! k = Some h → h ≠ [] → strictly_increasing h →
  get_from_snapshot k v m = historical k v (resolve h v).
Proof.
  intros Hv Hk Hne Hs. unfold get_from_snapshot.
  rewrite bool_decide_eq_true_2 by done. simpl. rewrite Hk.
  destruct h as [|e0 h']; [done|]. set (h := e0 :: h') in *.
  destruct (bsearch_sorted h v Hs) as (r & -> & Hr & Hle & Hgt).
  case_bool_decide as Hr1.
  - subst r. rewrite resolve_none; [done|].
    intros i x Hx. apply (Hgt i x); [lia|done].
  - destruct (py_getitem_in_range h r) as (e & He & ->); [lia|].
    rewrite (resolve_index h v (Z.to_nat r) e He); [done|..].
    + intros i x Hi. apply Hle. lia.
    + intros i x Hi. apply Hgt. lia.
Qed.

(** C2. In every reachable state, for a key with a non-empty Timeline and a
    valid snapshot identifier, [get_from_snapshot] resolves to the last entry
    with version at most [v]: with no such entry it returns [None] (it does
    not raise), on a tombstone it raises the deleted-at-snapshot [KeyError],
    and otherwise it returns the entry's value. *)
Theorem historical_resolution (ops : list op) (k : string) (v : Z) :
  let m := run ops init in
  timeline k m ≠ [] → 0 <= v < _next_snap_id m →
  get_from_snapshot k v m =
  match resolve (timeline k m) v with
  | None => Return None
  | Some e =>
      match value e with
      | None => Raise (KeyError (Msg.deleted_at k v))
      | Some x => Return (Some x)
      end
  end.
Proof.
  intros m Hne Hv.
  pose proof (wf_reachable ops) as Hwf. fold m in Hwf.
  destruct (wf_timeline_of k m Hwf) as [Hs _].
  apply (get_from_snapshot_resolve k v m (timeline k m) Hv); try done.
  by apply wf_lookup_timeline.
Qed.

Lemma historical_resolution_witness :
  timeline "4" demo ≠ [] ∧ 0 <= 1 < _next_snap_id demo
  ∧ get_from_snapshot "4" 1 demo = Return None.
Proof.
  assert (timeline "4" demo ≠ []) as Hne by (vm_compute; discriminate).
  assert (0 <= 1 < _next_snap_id demo) as Hv by (vm_compute; split; [discriminate | reflexivity]).
  split; [exact Hne|]. split; [exact Hv|].
  exact (historical_resolution _ "4" 1 Hne Hv).
Defined.


(** Formatting within the interpreter's limit gives the numeral, beyond it
    the [ValueError]. *)
Lemma str_within n : within_str_digits n → str n = Return (digits n).
Proof. intros Hn. unfold str. by rewrite bool_decide_eq_true_2. Qed.

Lemma str_beyond n :
  ¬ within_str_digits n → str n = Raise (ValueError int_str_limit).
Proof. intros Hn. unfold str. by rewrite bool_decide_eq_false_2. Qed.

(** The limit on either side of zero: [10 ^ 4300 - 1] is the longest integer
    that [str] formats, [10 ^ 4300] the first it refuses. *)
Lemma within_str_digits_iff n :
  within_str_digits n
  ↔ - 10 ^ int_max_str_digits < n < 10 ^ int_max_str_digits.
Proof. unfold within_str_digits. lia. Qed.

Lemma str_limit :
  str (10 ^ int_max_str_digits - 1)
  = Return (digits (10 ^ int_max_str_digits - 1))
  ∧ str (- (10 ^ int_max_str_digits - 1))
    = Return (digits (- (10 ^ int_max_str_digits - 1)))
  ∧ str (10 ^ int_max_str_digits) = Raise (ValueError int_str_limit)
  ∧ str (- 10 ^ int_max_str_digits) = Raise (ValueError int_str_limit).
Proof.
  assert (0 < 10 ^ int_max_str_digits) as Hpos
    by (apply Z.pow_pos_nonneg; [lia | discriminate]).
  split_and!; [apply str_within | apply str_within
               | apply str_beyond | apply str_beyond];
    rewrite within_str_digits_iff; lia.
Qed.

(** From a new map the counter is the number of calls of [take_snapshot], so
    a valid [snap_id] is within the limit unless more than [10 ^ 4300] of
    them were made: the case that [Msg.never_existed] and [Msg.deleted_at]
    leave out. *)
Lemma valid_snap_id_within ops v :
  0 <= v < _next_snap_id (run ops init) →
  Z.of_nat (length (filter is_take_snapshot ops)) <= 10 ^ int_max_str_digits →
  within_str_digits v.
Proof.
  intros Hv Hcalls. rewrite run_next in Hv. cbn [init _next_snap_id] in Hv.
  rewrite within_str_digits_iff. lia.
Qed.


(** With no snapshot taken the counter is not formatted at all. *)
Lemma invalid_snap_id_no_snapshot v :
  within_str_digits v →
  Msg.invalid_snap_id v 0
  = Return ("Invalid snap_id: " +:+ digits v +:+ ". No snapshots taken yet.").
Proof.
  intros Hv. unfold Msg.invalid_snap_id, Msg.valid_range.
  rewrite bool_decide_eq_true_2 by done. by rewrite (str_within v).
Qed.

(** Beyond the limit the formatting of line 113 fails, and line 114 is not
    reached: an invalid [snap_id] of more than [int_max_str_digits] digits
    gets the interpreter's [ValueError]. *)
Lemma get_from_snapshot_beyond_limit m k v :
  v < 0 ∨ _next_snap_id m <= v → ¬ within_str_digits v →
  get_from_snapshot k v m = Raise (ValueError int_str_limit).
Proof.
  intros Hv Hbig. unfold get_from_snapshot.
  rewrite (bool_decide_eq_false_2 (0 <= v < _next_snap_id m)) by lia.
  cbn [negb]. unfold Msg.invalid_snap_id, Msg.valid_range.
  case_bool_decide.
  - by rewrite (str_beyond v).
  - destruct (decide (within_str_digits (_next_snap_id m - 1))) as [HN|HN].
    + rewrite (str_within _ HN). by rewrite (str_beyond v).
    + by rewrite (str_beyond _ HN).
Qed.


Lemma get_from_snapshot_no_snapshot m k v :
  within_str_digits v → _next_snap_id m = 0 →
  get_from_snapshot k v m
  = Raise (IndexError
      ("Invalid snap_id: " +:+ digits v +:+ ". No snapshots taken yet.")).
Proof.
  intros Hfit HN. unfold get_from_snapshot.
  rewrite (bool_decide_eq_false_2 (0 <= v < _next_snap_id m)) by lia.
  cbn [negb]. by rewrite HN, (invalid_snap_id_no_snapshot v Hfit).
Qed.

Example get_from_snapshot_at_limit :
  get_from_snapshot "1" (10 ^ int_max_str_digits) init
  = Raise (ValueError int_str_limit)
  ∧ get_from_snapshot "1" (- 10 ^ int_max_str_digits) demo
    = Raise (ValueError int_str_limit)
  ∧ get_from_snapshot "1" (10 ^ int_max_str_digits - 1) init
    = Raise (IndexError
        ("Invalid snap_id: " +:+ digits (10 ^ int_max_str_digits - 1)
         +:+ ". No snapshots taken yet.")).
Proof.
  assert (0 < 10 ^ int_max_str_digits) as Hpos
    by (apply Z.pow_pos_nonneg; [lia | discriminate]).
  split_and!.
  - apply get_from_snapshot_beyond_limit;
      [right; cbn [init _next_snap_id]; lia
      | rewrite within_str_digits_iff; lia].
  - apply get_from_snapshot_beyond_limit;
      [left; lia | rewrite within_str_digits_iff; lia].
  - apply get_from_snapshot_no_snapshot;
      [rewrite within_str_digits_iff; lia | reflexivity].
Qed.



(** ** History is frozen by [take_snapshot] *)

Lemma kept_app N h0 e :
  kept N (h0 ++ [e]) = if bool_decide (snap_id e = N) then h0 else h0 ++ [e].
Proof.
  unfold kept. rewrite last_snoc. case_bool_decide; [|done].
  rewrite length_app. simpl.
  replace (pred (length h0 + 1)) with (length h0) by lia.
  by rewrite take_app_length.
Qed.

Lemma filter_kept N v h :
  v < N →
  filter (λ e, snap_id e <= v) (kept N h) = filter (λ e, snap_id e <= v) h.
Proof.
  intros Hv. destruct (last h) as [e|] eqn:Hlast.
  - apply last_Some in Hlast as [h0 ->]. rewrite kept_app.
    case_bool_decide as HN; [|done].
    rewrite filter_app, filter_cons_False, filter_nil, app_nil_r; [done|lia].
  - apply last_None in Hlast as ->. done.
Qed.

(** Entries at or before a version that was already handed out are not
    touched by any call. *)
Lemma frozen_put k k' x v m :
  v < _next_snap_id m →
  filter (λ e, snap_id e <= v) (timeline k (put k' x m))
  = filter (λ e, snap_id e <= v) (timeline k m).
Proof.
  intros Hv. destruct (decide (k' = k)) as [->|Hne].
  - rewrite put_timeline, filter_app, filter_kept by done.
    rewrite filter_cons_False, filter_nil, app_nil_r; [done|simpl; lia].
  - by rewrite put_timeline_ne.
Qed.

Lemma frozen_step k v m o :
  v < _next_snap_id m →
  filter (λ e, snap_id e <= v) (timeline k (step m o))
  = filter (λ e, snap_id e <= v) (timeline k m).
Proof.
  intros Hv. destruct o as [k' x|k'| | |]; unfold step; simpl; try done.
  - by apply frozen_put.
  - unfold delete. destruct (_ !! k'); [by apply frozen_put|done].
Qed.

Lemma frozen_run k v ops m :
  v < _next_snap_id m →
  filter (λ e, snap_id e <= v) (timeline k (run ops m))
  = filter (λ e, snap_id e <= v) (timeline k m).
Proof.
  revert m. induction ops as [|o ops IH]; intros m Hv; [done|].
  change (run (o :: ops) m) with (run ops (step m o)).
  rewrite IH, frozen_step; [done..|].
  rewrite step_next. destruct (is_take_snapshot o); lia.
Qed.

(** Every valid version was returned by a [take_snapshot] of the sequence. *)
Lemma snapshot_split ops v :
  0 <= v < _next_snap_id (run ops init) →
  ∃ ops1 ops2, ops = ops1 ++ TakeSnapshot :: ops2
               ∧ _next_snap_id (run ops1 init) = v.
Proof.
  induction ops as [|o ops IH] using rev_ind; [simpl; lia|].
  rewrite run_snoc, step_next. intros Hv.
  destruct (decide (v < _next_snap_id (run ops init))) as [Hlt|Hge].
  - destruct IH as (ops1 & ops2 & -> & HN); [lia|].
    exists ops1, (ops2 ++ [o]). by rewrite <- app_assoc.
  - destruct o; simpl in Hv; try lia.
    exists ops, []. split; [done|lia].
Qed.

(** After [ops1], a [take_snapshot] and then [ops2], the query at the
    version that [take_snapshot] returned answers what [get] answered right
    after it. *)
Lemma round_trip_at (ops1 ops2 : list op) (k : string) :
  let v := fst (take_snapshot (run ops1 init)) in
  let m_v := snd (take_snapshot (run ops1 init)) in
  let m := run (ops1 ++ TakeSnapshot :: ops2) init in
  get_from_snapshot k v m =
    match get k m_v with
    | Return x => Return (Some x)
    | Raise _ =>
        match _key_history_store m_v !! k with
        | Some _ => Raise (KeyError (Msg.deleted_at k v))
        | None =>
            match _key_history_store m !! k with
            | Some _ => Return None
            | None => Raise (KeyError (Msg.never_existed k v))
            end
        end
    end
  ∧ (∀ e, get k m_v = Raise e →
          (e = KeyError (Msg.get_missing k)
           ∧ _key_history_store m_v !! k = None)
          ∨ (e = KeyError (Msg.get_deleted k)
             ∧ is_Some (_key_history_store m_v !! k))).
Proof.
  intros v m_v m. set (m1 := run ops1 init) in *.
  assert (m = run ops2 m_v) as -> by (unfold m; by rewrite run_app).
  set (m2 := run ops2 m_v) in *.
  assert (wf_map m1) as Hwf1 by apply wf_reachable.
  assert (wf_map m_v) as Hwfv by by apply wf_take_snapshot.
  assert (wf_map m2) as Hwf2 by by apply wf_run.
  assert (0 <= v < _next_snap_id m2) as Hv.
  { pose proof (run_next_le ops2 m_v) as Hle. fold m2 in Hle.
    destruct Hwf1 as [HN _]. unfold v, m_v in *. simpl in *. lia. }
  assert (resolve (timeline k m2) v = last (timeline k m_v)) as Hres.
  { unfold resolve, m2. rewrite frozen_run by (unfold v; simpl; lia).
    rewrite filter_all; [done|].
    destruct (wf_timeline_of k m1 Hwf1) as [_ Hle].
    eapply Forall_impl; [exact Hle|]. simpl. unfold v. simpl. lia. }
  rewrite get_current.
  destruct (_key_history_store m_v !! k) as [h1|] eqn:Hk1.
  - destruct Hwfv as [_ Hall]. destruct (Hall k h1 Hk1) as (Hne1 & _ & _).
    rewrite (timeline_lookup k m_v h1 Hk1) in *.
    destruct (last h1) as [e|] eqn:Hlast; [|by apply last_None in Hlast].
    assert (timeline k m2 ≠ []) as Hne2.
    { intros Hnil. by rewrite Hnil in Hres. }
    destruct (wf_timeline_of k m2 Hwf2) as [Hs2 _].
    rewrite (get_from_snapshot_resolve k v m2 (timeline k m2)), Hres;
      [|done|by apply wf_lookup_timeline|done..].
    unfold historical, current. split.
    + by destruct (value e).
    + intros e'. destruct (value e); [done|]. intros [= <-]. right. eauto.
  - rewrite (proj1 (wf_lookup_None k m_v Hwfv) Hk1) in *. simpl. split.
    + destruct (_key_history_store m2 !! k) as [h2|] eqn:Hk2.
      * destruct Hwf2 as [_ Hall]. destruct (Hall k h2 Hk2) as (Hne2 & Hs2 & _).
        rewrite (get_from_snapshot_resolve k v m2 h2 Hv Hk2 Hne2 Hs2).
        rewrite (timeline_lookup k m2 h2 Hk2) in Hres. by rewrite Hres.
      * unfold get_from_snapshot.
        rewrite bool_decide_eq_true_2 by done. simpl. by rewrite Hk2.
    + intros e' [= <-]. by left.
Qed.

(** C1. Every version [v] valid at query time was returned by a
    [take_snapshot] of the sequence, and for every key [get_from_snapshot]
    at [v] answers what [get] answered right after that call: the value when
    [get] returned one; the deleted-at-snapshot error when [get] failed on a
    tombstone; and, when [get] failed because the key had no Timeline, either
    [None] (the key was written later) or the never-existed error. *)
Theorem historical_round_trip (ops : list op) (k : string) (v : Z) :
  0 <= v < _next_snap_id (run ops init) →
  (∃ ops1 ops2, ops = ops1 ++ TakeSnapshot :: ops2
                ∧ fst (take_snapshot (run ops1 init)) = v)
  ∧ (∀ ops1 ops2 m_v,
       ops = ops1 ++ TakeSnapshot :: ops2 →
       take_snapshot (run ops1 init) = (v, m_v) →
       get_from_snapshot k v (run ops init) =
         match get k m_v with
         | Return x => Return (Some x)
         | Raise _ =>
             match _key_history_store m_v !! k with
             | Some _ => Raise (KeyError (Msg.deleted_at k v))
             | None =>
                 match _key_history_store (run ops init) !! k with
                 | Some _ => Return None
                 | None => Raise (KeyError (Msg.never_existed k v))
                 end
             end
         end
       ∧ (∀ e, get k m_v = Raise e →
               (e = KeyError (Msg.get_missing k)
                ∧ _key_history_store m_v !! k = None)
               ∨ (e = KeyError (Msg.get_deleted k)
                  ∧ is_Some (_key_history_store m_v !! k)))).
Proof.
  intros Hv. split; [by apply snapshot_split|].
  intros ops1 ops2 m_v -> Htake.
  pose proof (round_trip_at ops1 ops2 k) as Hrt.
  rewrite Htake in Hrt. exact Hrt.
Qed.

Lemma historical_round_trip_witness :
  let ops := [Put "1" (Some 1); TakeSnapshot; Put "1" (Some 2); TakeSnapshot] in
  0 <= 0 < _next_snap_id (run ops init)
  ∧ get_from_snapshot "1" 0 (run ops init) = Return (Some 1).
Proof.
  intros ops.
  assert (0 <= 0 < _next_snap_id (run ops init))
    as Hv by (vm_compute; split; [discriminate | reflexivity]).
  split; [exact Hv|].
  exact (proj1 (proj2 (historical_round_trip ops "1" 0 Hv)
                  [Put "1" (Some 1)] [Put "1" (Some 2); TakeSnapshot]
                  (snd (take_snapshot (run [Put "1" (Some 1)] init)))
                  eq_refl eq_refl)).
Defined.

(** ** The current value *)

Lemma step_lookup_ne k m o :
  written_key o ≠ Some k →
  _key_history_store (step m o) !! k = _key_history_store m !! k.
Proof.
  destruct o as [k' x|k'| | |]; unfold step; simpl; intros Hne; try done.
  - apply put_lookup_ne. congruence.
  - unfold delete. destruct (_ !! k'); [|done]. apply put_lookup_ne. congruence.
Qed.

Lemma most_recent_write_snoc k ops o :
  most_recent_write k (ops ++ [o])
  = if decide (written_key o = Some k) then Some o else most_recent_write k ops.
Proof.
  unfold most_recent_write. rewrite filter_app, filter_cons, filter_nil.
  case_decide; [apply last_snoc | by rewrite app_nil_r].
Qed.

Lemma most_recent_write_Some k ops o :
  most_recent_write k ops = Some o → written_key o = Some k ∧ o ∈ ops.
Proof.
  unfold most_recent_write. intros Hin%last_Some_elem_of.
  rewrite list_elem_of_filter in Hin. destruct Hin. by split.
Qed.

Lemma most_recent_write_None k ops :
  most_recent_write k ops = None → ∀ v, Put k v ∉ ops.
Proof.
  unfold most_recent_write. intros Hnil%last_None v.
  by apply (filter_nil_not_elem_of _ ops (Put k v) Hnil).
Qed.

Lemma put_last k v m :
  last (timeline k (put k v m))
  = Some {| snap_id := _next_snap_id m; value := v |}.
Proof. by rewrite put_timeline, last_snoc. Qed.

(** Along any sequence of calls on a new map: a key has a Timeline exactly
    when it was put, and the last entry of its Timeline holds what the most
    recent write left. *)
Lemma write_tracking ops k :
  (_key_history_store (run ops init) !! k = None ↔ ∀ v, Put k v ∉ ops)
  ∧ (∀ e, last (timeline k (run ops init)) = Some e →
          value e = written_value (most_recent_write k ops)).
Proof.
  induction ops as [|o ops [IHa IHb]] using rev_ind.
  { split; [|done]. split; [intros _ v Hin; by apply not_elem_of_nil in Hin|done]. }
  rewrite run_snoc, most_recent_write_snoc. set (m := run ops init) in *.
  assert ((∀ v, Put k v ∉ ops ++ [o])
          ↔ (∀ v, Put k v ∉ ops) ∧ (∀ v, o ≠ Put k v)) as Hmem.
  { split.
    - intros Hall. split; intros v.
      + intros Hin. apply (Hall v), elem_of_app. by left.
      + intros ->. apply (Hall v), elem_of_app. right.
        by apply list_elem_of_singleton.
    - intros [H1 H2] v [Hin|Hin%list_elem_of_singleton]%elem_of_app;
        [by apply (H1 v) | by apply (H2 v)]. }
  rewrite Hmem.
  case_decide as Hw.
  - destruct o as [k' x|k'| | |]; simpl in Hw; try done;
      injection Hw as ->;
      [change (step m (Put k x)) with (put k x m)
      |change (step m (Delete k)) with (delete k m)].
    + split.
      * rewrite put_unfold. simpl. rewrite lookup_insert_eq.
        split; [done|]. intros [_ Hx]. by destruct (Hx x).
      * intros e. rewrite put_last. by intros [= <-].
    + unfold delete. destruct (_key_history_store m !! k) as [h|] eqn:Hk.
      * split.
        -- rewrite put_unfold. simpl. rewrite lookup_insert_eq.
           split; [done|]. intros [Hno _]. apply IHa in Hno. congruence.
        -- intros e. rewrite put_last. by intros [= <-].
      * split.
        -- rewrite Hk. split; [|done]. intros _. split; [by apply IHa|done].
        -- intros e. unfold timeline. by rewrite Hk.
  - unfold timeline in *. rewrite step_lookup_ne by done. split; [|done].
    rewrite IHa. split; [|tauto]. intros Hno. split; [done|].
    intros v ->. by apply Hw.
Qed.

(** C4. After any sequence of calls on a new map, [get(k)] answers from the
    last entry of [k]'s Timeline, which holds what the most recent write to
    [k] left: it returns [x] exactly when that write is [put(k, x)]; it fails,
    always with [KeyError], exactly when [k] has no Timeline or the last entry
    is a tombstone, that is, when [k] was never put or its most recent write
    is a [delete] (or a [put] of [None]). *)
Theorem current_value_correct (ops : list op) (k : string) :
  let m := run ops init in
  get k m =
    match last (timeline k m) with
    | None => Raise (KeyError (Msg.get_missing k))
    | Some e =>
        match value e with
        | None => Raise (KeyError (Msg.get_deleted k))
        | Some x => Return x
        end
    end
  ∧ (_key_history_store m !! k = None ↔ ∀ v, Put k v ∉ ops)
  ∧ (∀ x, get k m = Return x
          ↔ most_recent_write k ops = Some (Put k (Some x)))
  ∧ ((∃ e, get k m = Raise e)
     ↔ _key_history_store m !! k = None
       ∨ ∃ e, last (timeline k m) = Some e ∧ value e = None)
  ∧ ((∃ e, get k m = Raise e)
     ↔ (∀ v, Put k v ∉ ops)
       ∨ most_recent_write k ops = Some (Delete k)
       ∨ most_recent_write k ops = Some (Put k None))
  ∧ (∀ e, get k m = Raise e →
          e = KeyError (Msg.get_missing k) ∨ e = KeyError (Msg.get_deleted k)).
Proof.
  intros m. destruct (write_tracking ops k) as [Hnone Hlast]. fold m in Hnone, Hlast.
  pose proof (wf_reachable ops) as Hwf. fold m in Hwf.
  pose proof (wf_lookup_None k m Hwf) as Hnil.
  assert (∀ x, get k m = Return x
               ↔ most_recent_write k ops = Some (Put k (Some x))) as Hret.
  { intros x. rewrite get_current. unfold current. split.
    - destruct (last (timeline k m)) as [e|] eqn:He; [|done].
      specialize (Hlast e eq_refl). destruct (value e) as [y|]; [|done].
      intros [= ->].
      destruct (most_recent_write k ops) as [o|] eqn:Ho; [|done].
      apply most_recent_write_Some in Ho as [Hw _].
      destruct o; simpl in *; try done. congruence.
    - intros Hmrw. pose proof Hmrw as [_ Hin]%most_recent_write_Some.
      destruct (last (timeline k m)) as [e|] eqn:He.
      + rewrite (Hlast e eq_refl), Hmrw. done.
      + apply last_None in He. apply Hnil in He.
        exfalso. by apply (proj1 Hnone He (Some x)). }
  assert ((∃ e, get k m = Raise e)
          ↔ _key_history_store m !! k = None
            ∨ ∃ e, last (timeline k m) = Some e ∧ value e = None) as Hfail.
  { rewrite get_current, Hnil, <- last_None. unfold current.
    destruct (last (timeline k m)) as [e|].
    - destruct (value e) eqn:Hval.
      + split; [by intros [? [=]]|].
        intros [[=]|(e' & [= <-] & ?)]. congruence.
      + split; [|by eauto]. intros _. right. eauto.
    - split; [by left | by eauto]. }
  split_and!; [apply get_current | done | done | done | |].
  - split.
    + intros [e He].
      destruct (most_recent_write k ops) as [o|] eqn:Ho.
      * pose proof Ho as [Hw _]%most_recent_write_Some.
        destruct o as [k' [x|]|k'| | |]; simpl in Hw; try done;
          injection Hw as ->; [|by auto..].
        pose proof (proj2 (Hret x) eq_refl). congruence.
      * left. by apply most_recent_write_None.
    + intros Hcases. destruct (get k m) as [x|e] eqn:Hget; [|by eauto].
      pose proof (proj1 (Hret x) eq_refl) as Hmrw.
      destruct Hcases as [Hno|[?|?]]; [|congruence..].
      apply most_recent_write_Some in Hmrw as [_ Hin]. by apply Hno in Hin.
  - intros e. rewrite get_current. unfold current.
    destruct (last (timeline k m)) as [en|]; [|intros [= <-]; by left].
    destruct (value en); [done|]. intros [= <-]. by right.
Qed.

Lemma current_value_correct_witness :
  let ops := [Put "a" (Some 1); TakeSnapshot; Put "a" (Some 7)] in
  most_recent_write "a" ops = Some (Put "a" (Some 7))
  ∧ get "a" (run ops init) = Return 7.
Proof.
  intros ops.
  assert (most_recent_write "a" ops = Some (Put "a" (Some 7))) as H
    by reflexivity.
  split; [exact H|].
  exact (proj2 (proj1 (proj2 (proj2 (current_value_correct ops "a"))) 7) H).
Defined.

(** ** Writing a tombstone to an unseen key *)

(** A Timeline that starts at version [N0] and holds tombstones only stays
    so under every call but a [put] of an integer to the key. *)
Lemma tombstones_put k N0 m :
  snap_id <$> head (timeline k m) = Some N0 →
  Forall (λ e, value e = None) (timeline k m) →
  snap_id <$> head (timeline k (put k None m)) = Some N0
  ∧ Forall (λ e, value e = None) (timeline k (put k None m)).
Proof.
  intros Hhead Hall. rewrite put_timeline.
  destruct (last (timeline k m)) as [e|] eqn:Hlast.
  2: { apply last_None in Hlast. by rewrite Hlast in Hhead. }
  apply last_Some in Hlast as [h0 Hh]. rewrite Hh in *.
  apply Forall_app in Hall as [Hall0 He]. rewrite kept_app.
  case_bool_decide as HN.
  - split.
    + destruct h0; simpl in *; [congruence|done].
    + apply Forall_app. split; [done|]. by repeat constructor.
  - split.
    + by destruct h0.
    + rewrite !Forall_app. split_and!; [done..|]. by repeat constructor.
Qed.

Lemma tombstones_step k N0 m o :
  (∀ x, o ≠ Put k (Some x)) →
  snap_id <$> head (timeline k m) = Some N0 →
  Forall (λ e, value e = None) (timeline k m) →
  snap_id <$> head (timeline k (step m o)) = Some N0
  ∧ Forall (λ e, value e = None) (timeline k (step m o)).
Proof.
  intros Ho Hhead Hall.
  destruct (decide (written_key o = Some k)) as [Hw|Hw].
  - destruct o as [k' [x|]|k'| | |]; simpl in Hw; try done; injection Hw as ->.
    + by destruct (Ho x).
    + by apply tombstones_put.
    + change (step m (Delete k)) with (delete k m). unfold delete.
      destruct (_key_history_store m !! k) eqn:Hk; [by apply tombstones_put|done].
  - unfold timeline in *. by rewrite step_lookup_ne.
Qed.

Lemma tombstones_run k N0 ops m :
  (∀ x, Put k (Some x) ∉ ops) →
  snap_id <$> head (timeline k m) = Some N0 →
  Forall (λ e, value e = None) (timeline k m) →
  snap_id <$> head (timeline k (run ops m)) = Some N0
  ∧ Forall (λ e, value e = None) (timeline k (run ops m)).
Proof.
  revert m. induction ops as [|o ops IH]; intros m Hno Hhead Hall; [done|].
  change (run (o :: ops) m) with (run ops (step m o)).
  destruct (tombstones_step k N0 m o) as [Hhead' Hall']; try done.
  - intros x ->. apply (Hno x). by left.
  - apply IH; try done. intros x Hin. apply (Hno x). by right.
Qed.

(** C10, as the code has it.  [put(k, None)] on a key without a Timeline
    (where [delete(k)] changes nothing) creates a one-entry Timeline holding
    a tombstone, after which [get(k)] raises [KeyError]; a following
    [delete(k)] is no longer skipped, it runs [put(k, None)]: before any
    [take_snapshot] that rewrites the pending tombstone and the map stays the
    same, after a [take_snapshot] it appends a second tombstone; and as long
    as no integer is put to [k], [get_from_snapshot(k, v)] raises the
    deleted-at-snapshot [KeyError] for every valid [v] at or after the
    entry's version. *)
Theorem put_none_on_unseen_key (ops : list op) (k : string) :
  let m := run ops init in
  _key_history_store m !! k = None →
  delete k m = m
  ∧ timeline k (put k None m)
    = [{| snap_id := _next_snap_id m; value := None |}]
  ∧ get k (put k None m) = Raise (KeyError (Msg.get_deleted k))
  ∧ delete k (put k None m) = put k None (put k None m)
  ∧ delete k (put k None m) = put k None m
  ∧ timeline k (delete k (snd (take_snapshot (put k None m))))
    = [{| snap_id := _next_snap_id m; value := None |};
       {| snap_id := _next_snap_id m + 1; value := None |}]
  ∧ (∀ ops' v,
       (∀ x, Put k (Some x) ∉ ops') →
       _next_snap_id m <= v < _next_snap_id (run ops' (put k None m)) →
       get_from_snapshot k v (run ops' (put k None m))
       = Raise (KeyError (Msg.deleted_at k v))).
Proof.
  intros m Hk.
  pose proof (wf_reachable ops) as Hwf. fold m in Hwf.
  assert (timeline k (put k None m)
          = [{| snap_id := _next_snap_id m; value := None |}]) as Htl.
  { rewrite put_timeline. unfold timeline. by rewrite Hk. }
  assert (delete k (put k None m) = put k None (put k None m)) as Hdel.
  { unfold delete at 1. rewrite put_unfold at 1. simpl.
    by rewrite lookup_insert_eq. }
  split_and!.
  - unfold delete. by rewrite Hk.
  - done.
  - by rewrite get_current, Htl.
  - done.
  - by rewrite Hdel, put_put.
  - set (m' := snd (take_snapshot (put k None m))).
    assert (timeline k m' = [{| snap_id := _next_snap_id m; value := None |}])
      as Htl' by exact Htl.
    assert (delete k m' = put k None m') as ->.
    { unfold delete. unfold timeline in Htl'.
      destruct (_key_history_store m' !! k); [done|discriminate]. }
    rewrite put_timeline, Htl'. unfold kept. simpl.
    rewrite bool_decide_eq_false_2 by lia. done.
  - intros ops' v Hno Hv. set (m' := run ops' (put k None m)) in *.
    assert (wf_map m') as Hwf' by by apply wf_run, wf_put.
    destruct (tombstones_run k (_next_snap_id m) ops' (put k None m))
      as [Hhead Hall];
      [done | by rewrite Htl | rewrite Htl; by repeat constructor |].
    fold m' in Hhead, Hall.
    destruct (timeline k m') as [|e0 rest] eqn:Hh; [done|].
    simpl in Hhead. injection Hhead as Hhead.
    destruct (wf_timeline_of k m' Hwf') as [Hs _]. rewrite Hh in Hs.
    rewrite (get_from_snapshot_resolve k v m' (e0 :: rest)); try done.
    + unfold historical.
      destruct (resolve (e0 :: rest) v) as [e|] eqn:Hres.
      * apply last_Some_elem_of in Hres.
        rewrite list_elem_of_filter in Hres. destruct Hres as [_ Hin].
        eapply Forall_forall in Hall; [|exact Hin]. by rewrite Hall.
      * apply last_None in Hres. exfalso.
        apply (filter_nil_not_elem_of _ _ e0 Hres); [|by left].
        rewrite Hhead. apply Hv.
    + destruct Hwf as [HN0 _]. split; [|apply Hv].
      etrans; [exact HN0|apply Hv].
    + rewrite <- Hh. apply wf_lookup_timeline; [done|by rewrite Hh].
Qed.

Lemma put_none_on_unseen_key_witness :
  _key_history_store (run [Put "a" (Some 1)] init) !! "k"%string = None
  ∧ delete "k" (put "k" None (run [Put "a" (Some 1)] init))
    = put "k" None (run [Put "a" (Some 1)] init).
Proof.
  assert (_key_history_store (run [Put "a" (Some 1)] init) !! "k"%string = None)
    as H by reflexivity.
  split; [exact H|].
  exact (proj1 (proj2 (proj2 (proj2 (proj2
           (put_none_on_unseen_key [Put "a" (Some 1)] "k" H)))))).
Defined.

(** C10 as stated fails: right after [put(k, None)] on an unseen key,
    [delete(k)] leaves the whole map as it is. *)
Lemma delete_after_put_none_unchanged :
  _key_history_store init !! "k"%string = None
  ∧ delete "k" (put "k" None init) = put "k" None init
  ∧ ¬ (∀ (m : SnapshottableMap) (k : string),
         _key_history_store m !! k = None →
         delete k (put k None m) ≠ put k None m).
Proof.
  assert (delete "k" (put "k" None init) = put "k" None init) as H
    by (by vm_compute).
  split; [done|]. split; [exact H|].
  intros Hall. by apply (Hall init "k"%string).
Qed.

(** * Further properties of the map *)

(** ** Shape and size of reachable Timelines *)

Lemma strictly_increasing_length h lo hi :
  strictly_increasing h → Forall (λ e, lo <= snap_id e <= hi) h →
  Z.of_nat (length h) <= Z.max 0 (hi - lo + 1).
Proof.
  intros Hs. revert lo. unfold strictly_increasing in Hs.
  induction Hs as [|e t Hs IH Hlt]; intros lo Hb; simpl; [lia|].
  apply Forall_cons in Hb as [He Ht].
  assert (Forall (λ x, lo + 1 <= snap_id x <= hi) t) as Ht'.
  { apply Forall_forall. intros x Hx.
    eapply Forall_forall in Hlt; [|exact Hx].
    eapply Forall_forall in Ht; [|exact Hx]. simpl in *. lia. }
  specialize (IH (lo + 1) Ht'). lia.
Qed.

(** X1. In every state reached from a new map the counter is not negative,
    no stored Timeline is empty, and every recorded version lies between 0
    and the counter. *)
Theorem reachable_versions_bounded (ops : list op) (k : string)
    (h : list HistoryEntry) :
  _key_history_store (run ops init) !! k = Some h →
  0 <= _next_snap_id (run ops init)
  ∧ h ≠ []
  ∧ Forall (λ e, 0 <= snap_id e <= _next_snap_id (run ops init)) h.
Proof.
  intros Hk. destruct (wf_reachable ops) as [HN Hall].
  destruct (Hall k h Hk) as (Hne & _ & Hb). done.
Qed.

Lemma reachable_versions_bounded_witness :
  _key_history_store demo !! "1"%string
  = Some [{| snap_id := 0; value := Some 1 |}; {| snap_id := 1; value := Some 2 |}]
  ∧ 0 <= _next_snap_id demo.
Proof.
  assert (_key_history_store (run demo_ops init) !! "1"%string
          = Some [{| snap_id := 0; value := Some 1 |};
                  {| snap_id := 1; value := Some 2 |}]) as H by reflexivity.
  split; [exact H|].
  exact (proj1 (reachable_versions_bounded demo_ops "1" _ H)).
Defined.

(** X2. Coalescing bounds the history by the snapshots, not by the writes:
    in every reachable state a Timeline has at most [N + 1] entries. *)
Theorem timeline_length_bounded (ops : list op) (k : string) :
  Z.of_nat (length (timeline k (run ops init)))
  <= _next_snap_id (run ops init) + 1.
Proof.
  pose proof (wf_reachable ops) as Hwf.
  destruct (wf_timeline_of k _ Hwf) as [Hs Hb]. destruct Hwf as [HN _].
  pose proof (strictly_increasing_length _ 0 _ Hs Hb). lia.
Qed.

(** ** Timelines only grow *)

Lemma kept_length N h : (length h ≤ length (kept N h) + 1)%nat.
Proof.
  unfold kept. destruct (last h); [case_bool_decide|]; try lia.
  rewrite length_take. lia.
Qed.

Lemma put_grows k' x m k h :
  _key_history_store m !! k = Some h →
  ∃ h', _key_history_store (put k' x m) !! k = Some h'
        ∧ (length h ≤ length h' ≤ length h + 1)%nat.
Proof.
  intros Hk. destruct (decide (k' = k)) as [->|Hne].
  - rewrite put_unfold. simpl. rewrite lookup_insert_eq.
    eexists. split; [done|]. rewrite length_app. simpl.
    rewrite (timeline_lookup k m h Hk).
    pose proof (kept_length (_next_snap_id m) h).
    pose proof (prefix_length _ _ (kept_prefix (_next_snap_id m) h)). lia.
  - rewrite put_lookup_ne by done. exists h. split; [done|lia].
Qed.

Lemma step_grows m o k h :
  _key_history_store m !! k = Some h →
  ∃ h', _key_history_store (step m o) !! k = Some h'
        ∧ (length h ≤ length h' ≤ length h + 1)%nat.
Proof.
  intros Hk. destruct o as [k' x|k'| | |]; unfold step; simpl.
  - by apply put_grows.
  - unfold delete. destruct (_key_history_store m !! k');
      [by apply put_grows|]. exists h. split; [done|lia].
  - exists h. split; [done|lia].
  - exists h. split; [done|lia].
  - exists h. split; [done|lia].
Qed.

Lemma run_grows ops m k h :
  _key_history_store m !! k = Some h →
  ∃ h', _key_history_store (run ops m) !! k = Some h'
        ∧ (length h ≤ length h' ≤ length h + length ops)%nat.
Proof.
  revert m h. induction ops as [|o ops IH]; intros m h Hk.
  { exists h. split; [done|simpl; lia]. }
  destruct (step_grows m o k h Hk) as (h1 & Hk1 & Hlen1).
  destruct (IH (step m o) h1 Hk1) as (h' & Hk' & Hlen').
  exists h'. split; [done|]. simpl. lia.
Qed.

(** X3. No call removes a key or shortens its Timeline, and a call adds at
    most one entry: after any sequence of calls, from any map, a key that had
    a Timeline of length [n] has one of length between [n] and [n] plus the
    number of calls. *)
Theorem timelines_only_grow (ops : list op) (m : SnapshottableMap)
    (k : string) (h : list HistoryEntry) :
  _key_history_store m !! k = Some h →
  ∃ h', _key_history_store (run ops m) !! k = Some h'
        ∧ (length h ≤ length h' ≤ length h + length ops)%nat.
Proof. intros Hk. by apply run_grows. Qed.

Lemma timelines_only_grow_witness :
  _key_history_store (put "a" (Some 1) init) !! "a"%string
  = Some [{| snap_id := 0; value := Some 1 |}]
  ∧ ∃ h', _key_history_store
            (run [TakeSnapshot; Delete "a"] (put "a" (Some 1) init)) !! "a"%string
          = Some h'
          ∧ (1 ≤ length h' ≤ 1 + 2)%nat.
Proof.
  assert (_key_history_store (put "a" (Some 1) init) !! "a"%string
          = Some [{| snap_id := 0; value := Some 1 |}]) as H by reflexivity.
  split; [exact H|].
  exact (timelines_only_grow [TakeSnapshot; Delete "a"] _ "a" _ H).
Defined.

(** ** Snapshots are immutable *)

(** X4. Once a version is handed out, no later call changes what
    [get_from_snapshot] answers for it on a key that has a Timeline; for a
    key without one, later calls can only turn the never-existed error into
    the answer [None]. *)
Theorem snapshot_immutable (ops1 ops2 : list op) (k : string) (v : Z) :
  let m := run ops1 init in
  0 <= v < _next_snap_id m →
  (is_Some (_key_history_store m !! k) →
   get_from_snapshot k v (run ops2 m) = get_from_snapshot k v m)
  ∧ (_key_history_store m !! k = None →
     get_from_snapshot k v (run ops2 m)
       = Raise (KeyError (Msg.never_existed k v))
     ∨ get_from_snapshot k v (run ops2 m) = Return None).
Proof.
  intros m Hv. set (m2 := run ops2 m).
  assert (wf_map m) as Hwf by apply wf_reachable.
  assert (wf_map m2) as Hwf2 by by apply wf_run.
  assert (0 <= v < _next_snap_id m2) as Hv2.
  { pose proof (run_next_le ops2 m) as Hle. fold m2 in Hle.
    split; [apply Hv|]. eapply Z.lt_le_trans; [apply Hv|exact Hle]. }
  assert (resolve (timeline k m2) v = resolve (timeline k m) v) as Hres.
  { unfold resolve, m2. rewrite frozen_run; [done|apply Hv]. }
  split.
  - intros [h Hk].
    destruct (run_grows ops2 m k h Hk) as (h2 & Hk2 & _).
    fold m2 in Hk2.
    destruct Hwf as [_ Hall]. destruct (Hall k h Hk) as (Hne & Hs & _).
    destruct Hwf2 as [_ Hall2]. destruct (Hall2 k h2 Hk2) as (Hne2 & Hs2 & _).
    rewrite (get_from_snapshot_resolve k v m2 h2 Hv2 Hk2 Hne2 Hs2).
    rewrite (get_from_snapshot_resolve k v m h Hv Hk Hne Hs).
    rewrite (timeline_lookup k m2 h2 Hk2), (timeline_lookup k m h Hk) in Hres.
    by rewrite Hres.
  - intros Hk. destruct (_key_history_store m2 !! k) as [h2|] eqn:Hk2.
    + right. destruct Hwf2 as [_ Hall2].
      destruct (Hall2 k h2 Hk2) as (Hne2 & Hs2 & _).
      rewrite (get_from_snapshot_resolve k v m2 h2 Hv2 Hk2 Hne2 Hs2).
      rewrite (timeline_lookup k m2 h2 Hk2) in Hres. rewrite Hres.
      unfold timeline. by rewrite Hk.
    + left. unfold get_from_snapshot.
      rewrite bool_decide_eq_true_2 by done. simpl. by rewrite Hk2.
Qed.

Lemma snapshot_immutable_witness :
  0 <= 0 < _next_snap_id (run [Put "a" (Some 1); TakeSnapshot] init)
  ∧ is_Some (_key_history_store (run [Put "a" (Some 1); TakeSnapshot] init)
               !! "a"%string)
  ∧ get_from_snapshot "a" 0
      (run [Put "a" (Some 9); Delete "a"; TakeSnapshot]
         (run [Put "a" (Some 1); TakeSnapshot] init))
    = Return (Some 1).
Proof.
  assert (0 <= 0 < _next_snap_id (run [Put "a" (Some 1); TakeSnapshot] init))
    as Hv by (vm_compute; split; [discriminate | reflexivity]).
  assert (is_Some (_key_history_store (run [Put "a" (Some 1); TakeSnapshot] init)
                     !! "a"%string)) as Hk by (vm_compute; eauto).
  split; [exact Hv|]. split; [exact Hk|].
  exact (proj1 (snapshot_immutable [Put "a" (Some 1); TakeSnapshot]
                  [Put "a" (Some 9); Delete "a"; TakeSnapshot] "a" 0 Hv) Hk).
Defined.

(** X5. In a reachable state and for a valid version, [get_from_snapshot]
    returns [None] exactly when the key has a Timeline whose first entry was
    recorded after that version. *)
Theorem absent_iff_written_later (ops : list op) (k : string) (v : Z) :
  0 <= v < _next_snap_id (run ops init) →
  (get_from_snapshot k v (run ops init) = Return None
   ↔ ∃ e0 rest, _key_history_store (run ops init) !! k = Some (e0 :: rest)
                ∧ v < snap_id e0).
Proof.
  intros Hv. set (m := run ops init) in *.
  destruct (wf_reachable ops) as [_ Hall]. fold m in Hall.
  split.
  - intros Hgfs. destruct (_key_history_store m !! k) as [h|] eqn:Hk.
    + destruct (Hall k h Hk) as (Hne & Hs & _).
      rewrite (get_from_snapshot_resolve k v m h Hv Hk Hne Hs) in Hgfs.
      destruct h as [|e0 rest]; [done|]. exists e0, rest. split; [done|].
      unfold historical in Hgfs.
      destruct (resolve (e0 :: rest) v) as [e|] eqn:Hres.
      { by destruct (value e). }
      apply last_None in Hres.
      destruct (decide (snap_id e0 <= v)) as [Hle|]; [|lia].
      by rewrite filter_cons_True in Hres.
    + unfold get_from_snapshot in Hgfs.
      rewrite bool_decide_eq_true_2 in Hgfs by done. simpl in Hgfs.
      by rewrite Hk in Hgfs.
  - intros (e0 & rest & Hk & Hlt).
    destruct (Hall k _ Hk) as (Hne & Hs & _).
    rewrite (get_from_snapshot_resolve k v m _ Hv Hk Hne Hs).
    rewrite resolve_none; [done|].
    intros [|i] x Hx; simpl in Hx; [injection Hx as <-; done|].
    apply StronglySorted_cons in Hs as [Hfirst _].
    eapply Forall_lookup_1 in Hfirst; [|exact Hx]. simpl in Hfirst. lia.
Qed.

Lemma absent_iff_written_later_witness :
  0 <= 1 < _next_snap_id demo
  ∧ (get_from_snapshot "4" 1 demo = Return None
     ↔ ∃ e0 rest, _key_history_store demo !! "4"%string = Some (e0 :: rest)
                  ∧ 1 < snap_id e0).
Proof.
  assert (0 <= 1 < _next_snap_id (run demo_ops init)) as Hv
    by (vm_compute; split; [discriminate | reflexivity]).
  split; [exact Hv|].
  exact (absent_iff_written_later demo_ops "4" 1 Hv).
Defined.

(** ** Reading after writing *)

(** X6. A [get] right after a [put] on the same key answers from that
    [put], whatever the map was: the integer put, or [KeyError] after a [put]
    of [None]. *)
Theorem get_after_put (m : SnapshottableMap) (k : string) (v : option Z) :
  get k (put k v m)
  = match v with
    | Some x => Return x
    | None => Raise (KeyError (Msg.get_deleted k))
    end.
Proof. rewrite get_current, put_last. by destruct v. Qed.

Lemma get_put_None m k : get k (put k None m) = Raise (KeyError (Msg.get_deleted k)).
Proof. by rewrite get_current, put_last. Qed.

Lemma delete_lookup_ne k k' m :
  k ≠ k' →
  _key_history_store (delete k m) !! k' = _key_history_store m !! k'.
Proof.
  intros Hne. unfold delete. destruct (_key_history_store m !! k); [|done].
  by apply put_lookup_ne.
Qed.

Lemma get_from_snapshot_ext k v m1 m2 :
  _next_snap_id m1 = _next_snap_id m2 →
  _key_history_store m1 !! k = _key_history_store m2 !! k →
  get_from_snapshot k v m1 = get_from_snapshot k v m2.
Proof. unfold get_from_snapshot. by intros -> ->. Qed.

(** X7. Writing to a key leaves every other key alone: a [put] or a
    [delete] on [k] changes neither [get] nor [get_from_snapshot] on a
    different key, whatever the map. *)
Theorem writes_are_local (m : SnapshottableMap) (k k' : string)
    (v : option Z) (snap : Z) :
  k ≠ k' →
  get k' (put k v m) = get k' m
  ∧ get k' (delete k m) = get k' m
  ∧ get_from_snapshot k' snap (put k v m) = get_from_snapshot k' snap m
  ∧ get_from_snapshot k' snap (delete k m) = get_from_snapshot k' snap m.
Proof.
  intros Hne. split_and!.
  - unfold get. by rewrite put_lookup_ne.
  - unfold get. by rewrite delete_lookup_ne.
  - apply get_from_snapshot_ext; [done|by apply put_lookup_ne].
  - apply get_from_snapshot_ext; [apply delete_next|by apply delete_lookup_ne].
Qed.

Lemma writes_are_local_witness :
  "a"%string ≠ "b"%string
  ∧ get "b" (put "a" None (put "b" (Some 2) init)) = get "b" (put "b" (Some 2) init).
Proof.
  assert ("a"%string ≠ "b"%string) as H by discriminate.
  split; [exact H|].
  exact (proj1 (writes_are_local (put "b" (Some 2) init) "a" "b" None 0 H)).
Defined.

(** X8. After [delete(k)], [get(k)] always raises [KeyError]: with the
    deleted message when the key was in the store, with the missing message
    when it was not; and deleting twice is the same as deleting once. *)
Theorem get_after_delete (m : SnapshottableMap) (k : string) :
  get k (delete k m)
  = match _key_history_store m !! k with
    | Some _ => Raise (KeyError (Msg.get_deleted k))
    | None => Raise (KeyError (Msg.get_missing k))
    end
  ∧ delete k (delete k m) = delete k m.
Proof.
  destruct (_key_history_store m !! k) as [h|] eqn:Hk.
  - assert (delete k m = put k None m) as -> by (unfold delete; by rewrite Hk).
    split; [apply get_put_None|].
    unfold delete. rewrite put_unfold at 1. simpl. rewrite lookup_insert_eq.
    apply put_put.
  - assert (delete k m = m) as -> by (unfold delete; by rewrite Hk).
    split.
    + unfold get. by rewrite Hk.
    + unfold delete. by rewrite Hk.
Qed.

(** X9. Writes to different keys commute: two [put]s, two [delete]s, or a
    [put] and a [delete] on distinct keys give the same map in either
    order. *)
Theorem writes_commute (m : SnapshottableMap) (o1 o2 : op) (k1 k2 : string) :
  written_key o1 = Some k1 → written_key o2 = Some k2 → k1 ≠ k2 →
  step (step m o1) o2 = step (step m o2) o1.
Proof.
  assert (∀ ka kb va vb m, ka ≠ kb →
            put ka va (put kb vb m) = put kb vb (put ka va m)) as Hpp.
  { intros ka kb va vb m' Hne.
    rewrite (put_unfold ka va (put kb vb m')), (put_unfold kb vb (put ka va m')).
    rewrite !put_next, !put_timeline_ne by done.
    rewrite (put_unfold kb vb m'), (put_unfold ka va m'). simpl.
    f_equal. by apply insert_insert_ne. }
  assert (∀ ka kb vb m, ka ≠ kb →
            delete ka (put kb vb m) = put kb vb (delete ka m)) as Hdp.
  { intros ka kb vb m' Hne. unfold delete.
    rewrite put_lookup_ne by done.
    destruct (_key_history_store m' !! ka); [by apply Hpp|done]. }
  intros H1 H2 Hne.
  destruct o1 as [ka va|ka| | |]; simpl in H1; try done; injection H1 as ->;
    destruct o2 as [kb vb|kb| | |]; simpl in H2; try done; injection H2 as ->.
  - apply (Hpp k2 k1 vb va m). done.
  - apply (Hdp k2 k1 va m). done.
  - symmetry. apply (Hdp k1 k2 vb m). done.
  - change (delete k2 (delete k1 m) = delete k1 (delete k2 m)).
    assert (∀ k m', is_Some (_key_history_store m' !! k) →
                    delete k m' = put k None m') as Hsome.
    { intros k m' [h Hk]. unfold delete. by rewrite Hk. }
    assert (∀ k m', _key_history_store m' !! k = None → delete k m' = m')
      as Hnone.
    { intros k m' Hk. unfold delete. by rewrite Hk. }
    destruct (_key_history_store m !! k1) as [h1|] eqn:Hk1,
             (_key_history_store m !! k2) as [h2|] eqn:Hk2.
    + rewrite (Hsome k1 m), (Hsome k2 m) by eauto.
      rewrite !Hsome by (rewrite put_lookup_ne by done; eauto).
      by apply Hpp.
    + rewrite (Hsome k1 m), (Hnone k2 m) by eauto.
      rewrite Hnone by (by rewrite put_lookup_ne).
      by rewrite Hsome by eauto.
    + rewrite (Hnone k1 m), (Hsome k2 m) by eauto.
      rewrite (Hnone k1) by (by rewrite put_lookup_ne).
      done.
    + by rewrite (Hnone k1 m), (Hnone k2 m), Hnone.
Qed.

Lemma writes_commute_witness :
  written_key (Put "a" (Some 1)) = Some "a"%string
  ∧ written_key (Delete "b") = Some "b"%string
  ∧ "a"%string ≠ "b"%string
  ∧ step (step (put "b" (Some 2) init) (Put "a" (Some 1))) (Delete "b")
    = step (step (put "b" (Some 2) init) (Delete "b")) (Put "a" (Some 1)).
Proof.
  assert ("a"%string ≠ "b"%string) as H by discriminate.
  split; [reflexivity|]. split; [reflexivity|]. split; [exact H|].
  exact (writes_commute (put "b" (Some 2) init) (Put "a" (Some 1)) (Delete "b")
           "a" "b" eq_refl eq_refl H).
Defined.

(** * Verification of the validator *)

Local Close Scope Z_scope.

(** ** The test cases of the script *)

Example chars : codes "{}[]:,n" = [LBRACE; RBRACE; LBRACKET; RBRACKET; COLON; COMMA; LETTER_N].
Proof. reflexivity. Qed.

Example main_step1 :
  validate (text " { 'key' : 'value', 'nested' : { 'a' : 'b' } } ") false = Some true
  ∧ validate (text "[ { 'key': [ 'v1', 'v2' ] }, 'second' ]") false = Some false
  ∧ validate (text " { 'key': null, 'other': 'value' } ") false = Some true
  ∧ validate (text "['a', 'b']") false = Some false.
Proof. vm_compute. repeat split. Qed.

Example main_step2 :
  validate (text " { 'key' : 'value', 'nested' : { 'a' : 'b' } } ") true = Some true
  ∧ validate (text "[ { 'key': [ 'v1', 'v2' ] }, 'second' ]") true = Some true
  ∧ validate (text " { 'key': null, 'other': 'value' } ") true = Some true
  ∧ validate (text "{'key': 123}") true = Some false
  ∧ validate (text "{'key': 'value',}") true = Some false
  ∧ validate (text "{'key': 'value") true = Some false.
Proof. vm_compute. repeat split. Qed.

(** ** Segments of the input *)

Lemma sub_nil (s : list N) p : sub s p p = [].
Proof. unfold sub. by rewrite Nat.sub_diag. Qed.

Lemma sub_app (s : list N) p q r :
  p ≤ q ≤ r → sub s p r = sub s p q ++ sub s q r.
Proof.
  intros Hpq. unfold sub.
  replace (r - p) with ((q - p) + (r - q)) by lia.
  rewrite <- take_take_drop, drop_drop. do 3 f_equal. lia.
Qed.

Lemma sub_one (s : list N) p c : s !! p = Some c → sub s p (S p) = [c].
Proof.
  intros Hc. unfold sub. replace (S p - p) with 1 by lia.
  rewrite <- (take_drop_middle s p c Hc) at 1.
  rewrite drop_app_length'; [done|].
  apply lookup_lt_Some in Hc. rewrite length_take. lia.
Qed.

Lemma sub_all (s : list N) : sub s 0 (length s) = s.
Proof. unfold sub. rewrite drop_0, Nat.sub_0_r. by apply take_ge. Qed.

Lemma sub_length (s : list N) p q : p ≤ q ≤ length s → length (sub s p q) = q - p.
Proof. intros. unfold sub. rewrite length_take, length_drop. lia. Qed.

Lemma sub_lookup (s : list N) p q i : i < q - p → sub s p q !! i = s !! (p + i).
Proof. intros. unfold sub. by rewrite lookup_take_lt, lookup_drop. Qed.

Lemma sub_middle (pre w suf : list N) :
  sub (pre ++ w ++ suf) (length pre) (length pre + length w) = w.
Proof.
  unfold sub. rewrite drop_app_length.
  replace (length pre + length w - length pre) with (length w) by lia.
  apply take_app_length.
Qed.

Lemma lookup_middle (pre suf : list N) :
  (pre ++ suf) !! length pre = head suf.
Proof.
  rewrite lookup_app_r by lia. rewrite Nat.sub_diag. by rewrite head_lookup.
Qed.

(** ** Whitespace *)

Lemma skip_whitespace_eq (s : list N) pos :
  _skip_whitespace s pos
  = match s !! pos with
    | Some c => if isspace c then _skip_whitespace s (pos + 1) else pos
    | None => pos
    end.
Proof.
  funelim (_skip_whitespace s pos); clear Heqcall;
    repeat match goal with
      | H : _ !! _ = _ |- _ => rewrite H
      | H : isspace _ = _ |- _ => rewrite H
      end; done.
Qed.

(** Where [_skip_whitespace] stops: not before [pos], not beyond the end,
    after whitespace only, and not on whitespace. *)
Lemma skip_whitespace_spec (s : list N) pos :
  pos ≤ _skip_whitespace s pos
  ∧ (pos ≤ length s → _skip_whitespace s pos ≤ length s)
  ∧ whitespace (sub s pos (_skip_whitespace s pos))
  ∧ (∀ c, s !! _skip_whitespace s pos = Some c → isspace c = false).
Proof.
  remember (length s - pos) as n eqn:Hn. revert pos Hn.
  induction n as [n IH] using lt_wf_ind. intros pos Hn.
  rewrite skip_whitespace_eq.
  destruct (s !! pos) as [c|] eqn:Hc.
  - destruct (isspace c) eqn:Hsp.
    + apply lookup_lt_Some in Hc as Hlt.
      destruct (IH (length s - (pos + 1)) ltac:(lia) (pos + 1) eq_refl)
        as (Hle & Hlen & Hws & Hstop).
      split_and!; [lia|lia| |done].
      rewrite (sub_app s pos (S pos)) by lia.
      rewrite (sub_one s pos c Hc). replace (S pos) with (pos + 1) by lia.
      by constructor.
    + split_and!; [done|done| |congruence].
      rewrite sub_nil. constructor.
  - split_and!; [done|done| |congruence].
    rewrite sub_nil. constructor.
Qed.

(** On an input cut as [pre ++ ws ++ suf], with [ws] whitespace and [suf]
    not starting with whitespace, skipping from the end of [pre] stops at the
    end of [ws]. *)
Lemma skip_whitespace_app (s pre ws suf : list N) :
  s = pre ++ ws ++ suf → whitespace ws →
  (∀ c, head suf = Some c → isspace c = false) →
  _skip_whitespace s (length pre) = length pre + length ws.
Proof.
  intros -> Hws Hsuf. revert pre.
  induction Hws as [|c ws Hc Hws IH]; intros pre; rewrite skip_whitespace_eq.
  - simpl. rewrite lookup_middle.
    destruct (head suf) as [c|] eqn:Hh; [|lia].
    rewrite (Hsuf c eq_refl). lia.
  - rewrite lookup_middle. simpl. rewrite Hc.
    specialize (IH (pre ++ [c])). rewrite <- app_assoc in IH. simpl in IH.
    rewrite length_app in IH. simpl in IH. rewrite IH. lia.
Qed.

Lemma skip_whitespace_stay (s : list N) pos :
  (∀ c, s !! pos = Some c → isspace c = false) → _skip_whitespace s pos = pos.
Proof.
  intros Hc. rewrite skip_whitespace_eq.
  destruct (s !! pos) as [c|]; [|done]. by rewrite (Hc c eq_refl).
Qed.

(** ** String tokens *)

(** The two-step branch of the loop is never taken: it is guarded by the
    negation of the loop condition. *)
Lemma parse_string_loop_eq (s : list N) pos :
  _parse_string_loop s pos
  = match s !! pos with
    | Some c => if bool_decide (c = QUOTE) then pos
                else _parse_string_loop s (pos + 1)
    | None => pos
    end.
Proof.
  funelim (_parse_string_loop s pos); clear Heqcall;
    repeat match goal with
      | H : _ !! _ = _ |- _ => rewrite H
      end; try done.
  - apply bool_decide_eq_false in Heq. rewrite bool_decide_eq_true_2; [done|].
    by destruct (decide (c = QUOTE)).
  - apply bool_decide_eq_true in Heq0.
    apply andb_true_iff in Heq as [Hq%bool_decide_eq_true _]. done.
  - apply bool_decide_eq_true in Heq0. by rewrite bool_decide_eq_false_2.
Qed.

Lemma parse_string_loop_spec (s : list N) pos :
  pos ≤ _parse_string_loop s pos
  ∧ (pos ≤ length s → _parse_string_loop s pos ≤ length s)
  ∧ (QUOTE ∉ sub s pos (_parse_string_loop s pos))
  ∧ (∀ c, s !! _parse_string_loop s pos = Some c → c = QUOTE).
Proof.
  remember (length s - pos) as n eqn:Hn. revert pos Hn.
  induction n as [n IH] using lt_wf_ind. intros pos Hn.
  rewrite parse_string_loop_eq.
  destruct (s !! pos) as [c|] eqn:Hc.
  - case_bool_decide as Hq.
    + split_and!; [done|done| |congruence].
      rewrite sub_nil. apply not_elem_of_nil.
    + apply lookup_lt_Some in Hc as Hlt.
      destruct (IH (length s - (pos + 1)) ltac:(lia) (pos + 1) eq_refl)
        as (Hle & Hlen & Hbody & Hstop).
      split_and!; [lia|lia| |done].
      rewrite (sub_app s pos (S pos)) by lia.
      rewrite (sub_one s pos c Hc). replace (S pos) with (pos + 1) by lia.
      rewrite elem_of_app, list_elem_of_singleton.
      intros [Heq|Hin]; [congruence|done].
  - split_and!; [done|done| |congruence].
    rewrite sub_nil. apply not_elem_of_nil.
Qed.

Lemma parse_string_loop_app (s pre body suf : list N) :
  s = pre ++ body ++ suf → QUOTE ∉ body →
  (∀ c, head suf = Some c → c = QUOTE) →
  _parse_string_loop s (length pre) = length pre + length body.
Proof.
  intros -> Hbody Hsuf. revert pre.
  induction body as [|c body IH]; intros pre; rewrite parse_string_loop_eq.
  - simpl. rewrite lookup_middle.
    destruct (head suf) as [c|] eqn:Hh; [|lia].
    rewrite (Hsuf c eq_refl). rewrite bool_decide_eq_true_2 by done. lia.
  - rewrite lookup_middle. simpl.
    apply not_elem_of_cons in Hbody as [Hc Hbody].
    rewrite bool_decide_eq_false_2 by done.
    specialize (IH Hbody (pre ++ [c])). rewrite <- app_assoc in IH. simpl in IH.
    rewrite length_app in IH. simpl in IH. rewrite IH. lia.
Qed.

Lemma guard_ne_false (c : N) : bool_decide (Some c ≠ Some c) = false.
Proof. apply bool_decide_eq_false_2. intros H. by apply H. Qed.

Lemma guard_ne_true (o : option N) (c : N) :
  o ≠ Some c → bool_decide (o ≠ Some c) = true.
Proof. apply bool_decide_eq_true_2. Qed.

Lemma parse_string_advances (s : list N) p b q :
  _parse_string s p = (b, q) → p ≤ q ∧ (p ≤ length s → q ≤ length s).
Proof.
  unfold _parse_string. case_bool_decide as H1; [intros [= <- <-]; lia|].
  destruct (parse_string_loop_spec s (p + 1)) as (Hle & Hlen & _ & _).
  assert (p < length s) as Hp.
  { by apply lookup_lt_Some in H1. }
  case_bool_decide as H2; intros [= <- <-]; [lia|].
  apply lookup_lt_Some in H2. lia.
Qed.

Lemma parse_string_sound (s : list N) p q :
  _parse_string s p = (true, q) →
  p < q ≤ length s ∧ StringToken (sub s p q).
Proof.
  unfold _parse_string. case_bool_decide as H1; [done|].
  case_bool_decide as H2; [done|]. intros [= <-].
  destruct (parse_string_loop_spec s (p + 1)) as (Hle & Hlen & Hbody & _).
  apply lookup_lt_Some in H1 as Hp. apply lookup_lt_Some in H2 as Hq.
  split; [lia|].
  rewrite (sub_app s p (S p)) by lia.
  rewrite (sub_app s (S p) (_parse_string_loop s (p + 1))) by lia.
  rewrite (sub_one s p _ H1).
  replace (_parse_string_loop s (p + 1) + 1)
    with (S (_parse_string_loop s (p + 1))) by lia.
  rewrite (sub_one s _ _ H2).
  replace (S p) with (p + 1) by lia. by constructor.
Qed.

Lemma parse_string_app (s pre tok suf : list N) :
  s = pre ++ tok ++ suf → StringToken tok →
  _parse_string s (length pre) = (true, length pre + length tok).
Proof.
  intros -> [body Hbody]. unfold _parse_string.
  rewrite lookup_middle. simpl.
  set (s := pre ++ QUOTE :: (body ++ [QUOTE]) ++ suf).
  assert (_parse_string_loop s (length pre + 1) = length (pre ++ [QUOTE] ++ body))
    as ->.
  { replace (length pre + 1) with (length (pre ++ [QUOTE]))
      by (rewrite length_app; simpl; lia).
    rewrite (parse_string_loop_app s (pre ++ [QUOTE]) body (QUOTE :: suf));
      [ rewrite !length_app; simpl; lia
      | unfold s; by rewrite <- !app_assoc
      | done
      | by intros c [= <-] ]. }
  unfold s.
  replace (pre ++ QUOTE :: (body ++ [QUOTE]) ++ suf)
    with ((pre ++ [QUOTE] ++ body) ++ QUOTE :: suf)
    by (by rewrite <- !app_assoc).
  rewrite lookup_middle. simpl.
  f_equal. rewrite !length_app. simpl. rewrite ?length_app. simpl. lia.
Qed.

Lemma parse_literal_advances (s lit : list N) p b q :
  _parse_literal s lit p = (b, q) → p ≤ q ∧ (p ≤ length s → q ≤ length s).
Proof.
  unfold _parse_literal. case_bool_decide as H; intros [= <- <-]; [|lia].
  apply (f_equal length) in H. rewrite length_take, length_drop in H. lia.
Qed.

Lemma parse_literal_sound (s lit : list N) p q :
  _parse_literal s lit p = (true, q) →
  sub s p q = lit ∧ q = p + length lit.
Proof.
  unfold _parse_literal. case_bool_decide as H; [|done]. intros [= <-].
  split; [|done]. unfold sub.
  by replace (p + length lit - p) with (length lit) by lia.
Qed.

Lemma parse_literal_app (s pre lit suf : list N) :
  s = pre ++ lit ++ suf →
  _parse_literal s lit (length pre) = (true, length pre + length lit).
Proof.
  intros ->. unfold _parse_literal.
  rewrite drop_app_length, take_app_length.
  by rewrite bool_decide_eq_true_2.
Qed.

(** ** Positions only advance *)

Section Advances.
Context (s : list N) (a : bool).

Lemma skip_whitespace_le p : p ≤ _skip_whitespace s p.
Proof. apply skip_whitespace_spec. Qed.

Lemma skip_whitespace_bound p :
  p ≤ length s → _skip_whitespace s p ≤ length s.
Proof. apply skip_whitespace_spec. Qed.

Lemma lookup_Some_lt p (c : N) : s !! p = Some c → p < length s.
Proof. apply lookup_lt_Some. Qed.

Lemma key_value_pair_advances pv :
  advances s pv → advances s (_parse_key_value_pair s pv).
Proof.
  intros Hpv p b q. unfold _parse_key_value_pair.
  pose proof (skip_whitespace_le p) as H1.
  pose proof (skip_whitespace_bound p) as H1'.
  destruct (_parse_string s (_skip_whitespace s p)) as [ok p2] eqn:Hstr.
  apply parse_string_advances in Hstr as [H2 H2'].
  destruct ok; simpl; [|intros [= <- <-]; lia].
  pose proof (skip_whitespace_le p2) as H3.
  pose proof (skip_whitespace_bound p2) as H3'.
  case_bool_decide as Hc; [intros [= <- <-]; lia|].
  apply lookup_Some_lt in Hc.
  pose proof (skip_whitespace_le (_skip_whitespace s p2 + 1)) as H4.
  pose proof (skip_whitespace_bound (_skip_whitespace s p2 + 1)) as H4'.
  intros Hr. apply Hpv in Hr as [H5 H5']. lia.
Qed.

Lemma comma_separated_advances f e n :
  advances s f → advances s (_parse_comma_separated_values s f e n).
Proof.
  intros Hf. induction n as [|n IH]; intros p b q; simpl; [done|].
  case_bool_decide as Hp; [|intros [= <- <-]; lia].
  pose proof (skip_whitespace_le p) as H1.
  pose proof (skip_whitespace_bound p) as H1'.
  destruct (f (_skip_whitespace s p)) as [[ok p2]|] eqn:Hf2; [|done].
  apply Hf in Hf2 as [H2 H2'].
  destruct ok; [|intros [= <- <-]; lia].
  pose proof (skip_whitespace_le p2) as H3.
  pose proof (skip_whitespace_bound p2) as H3'.
  case_bool_decide as He.
  { apply lookup_Some_lt in He. intros [= <- <-]. lia. }
  case_bool_decide as Hc; [intros [= <- <-]; lia|].
  apply lookup_Some_lt in Hc.
  intros Hr. apply IH in Hr as [H4 H4']. lia.
Qed.

Lemma object_advances pv : advances s pv → advances s (_parse_object s pv).
Proof.
  intros Hpv p b q. unfold _parse_object.
  case_bool_decide as Hc; [intros [= <- <-]; lia|].
  apply lookup_Some_lt in Hc.
  pose proof (skip_whitespace_le (p + 1)) as H1.
  pose proof (skip_whitespace_bound (p + 1)) as H1'.
  case_bool_decide as He.
  { apply lookup_Some_lt in He. intros [= <- <-]. lia. }
  intros Hr.
  apply (comma_separated_advances _ _ _ (key_value_pair_advances pv Hpv))
    in Hr as [H2 H2']. lia.
Qed.

Lemma array_advances pv : advances s pv → advances s (_parse_array s pv).
Proof.
  intros Hpv p b q. unfold _parse_array.
  case_bool_decide as Hc; [intros [= <- <-]; lia|].
  apply lookup_Some_lt in Hc.
  pose proof (skip_whitespace_le (p + 1)) as H1.
  pose proof (skip_whitespace_bound (p + 1)) as H1'.
  case_bool_decide as He.
  { apply lookup_Some_lt in He. intros [= <- <-]. lia. }
  intros Hr. apply (comma_separated_advances _ _ _ Hpv) in Hr as [H2 H2']. lia.
Qed.

Lemma value_advances d : advances s (_parse_value s a d).
Proof.
  induction d as [|d IH]; intros p b q; simpl; [done|].
  pose proof (skip_whitespace_le p) as H1.
  pose proof (skip_whitespace_bound p) as H1'.
  destruct (s !! _skip_whitespace s p) as [c|] eqn:Hc;
    [|intros [= <- <-]; lia].
  repeat case_bool_decide.
  - intros Hr. apply (object_advances _ IH) in Hr. lia.
  - intros [= Hr]. apply parse_string_advances in Hr. lia.
  - intros [= Hr]. apply parse_literal_advances in Hr. lia.
  - destruct a; simpl.
    + intros Hr. apply (array_advances _ IH) in Hr. lia.
    + intros [= <- <-]. lia.
  - rewrite andb_false_r. intros [= <- <-]. lia.
Qed.

End Advances.

(** ** The budget suffices, and a larger one changes nothing *)

Section Budget.
Context (s : list N) (a : bool).

Lemma key_value_pair_total pv p0 :
  (∀ p, p0 ≤ p → is_Some (pv p)) →
  ∀ p, p0 ≤ p → is_Some (_parse_key_value_pair s pv p).
Proof.
  intros Hpv p Hp. unfold _parse_key_value_pair.
  pose proof (skip_whitespace_le s p) as H1.
  destruct (_parse_string s (_skip_whitespace s p)) as [ok p2] eqn:Hstr.
  apply parse_string_advances in Hstr as [H2 _].
  destruct ok; simpl; [|by eauto].
  pose proof (skip_whitespace_le s p2) as H3.
  case_bool_decide as Hc; [by eauto|].
  pose proof (skip_whitespace_le s (_skip_whitespace s p2 + 1)) as H4.
  apply Hpv. lia.
Qed.

Lemma comma_separated_total f e p0 :
  advances s f → (∀ p, p0 ≤ p → is_Some (f p)) →
  ∀ n p, p0 ≤ p → length s - p < n →
         is_Some (_parse_comma_separated_values s f e n p).
Proof.
  intros Hadv Hf. induction n as [|n IH]; intros p Hp Hn; [lia|]. simpl.
  case_bool_decide as Hlt; [|by eauto].
  pose proof (skip_whitespace_le s p) as H1.
  destruct (Hf (_skip_whitespace s p) ltac:(lia)) as [[ok p2] Hf2].
  rewrite Hf2. apply Hadv in Hf2 as [H2 _].
  destruct ok; [|by eauto].
  pose proof (skip_whitespace_le s p2) as H3.
  case_bool_decide as He; [by eauto|].
  case_bool_decide as Hc; [by eauto|].
  apply lookup_lt_Some in Hc. apply IH; lia.
Qed.

Lemma value_total d : ∀ p, length s - p < d → is_Some (_parse_value s a d p).
Proof.
  induction d as [|d IH]; intros p Hd; [lia|]. simpl.
  pose proof (skip_whitespace_le s p) as H1.
  destruct (s !! _skip_whitespace s p) as [c|] eqn:Hc; [|by eauto].
  apply lookup_lt_Some in Hc as Hlt.
  assert (∀ p', _skip_whitespace s p + 1 ≤ p' →
                is_Some (_parse_value s a d p')) as Hinner.
  { intros p' Hp'. apply IH. lia. }
  repeat case_bool_decide; try by eauto.
  - unfold _parse_object. case_bool_decide; [by eauto|].
    pose proof (skip_whitespace_le s (_skip_whitespace s p + 1)) as Hsk.
    case_bool_decide; [by eauto|].
    eapply comma_separated_total; [| |reflexivity|lia].
    + apply key_value_pair_advances, value_advances.
    + intros p' Hp'. eapply key_value_pair_total; [|exact Hp'].
      intros p'' Hp''. apply Hinner. lia.
  - destruct a; simpl; [|by eauto].
    unfold _parse_array. case_bool_decide; [by eauto|].
    pose proof (skip_whitespace_le s (_skip_whitespace s p + 1)) as Hsk.
    case_bool_decide; [by eauto|].
    eapply comma_separated_total; [| |reflexivity|lia].
    + apply value_advances.
    + intros p' Hp'. apply Hinner. lia.
  - rewrite andb_false_r. by eauto.
Qed.

Lemma key_value_pair_extends f g :
  extends f g →
  extends (_parse_key_value_pair s f) (_parse_key_value_pair s g).
Proof.
  intros Hfg p r. unfold _parse_key_value_pair.
  destruct (_parse_string s (_skip_whitespace s p)) as [ok p2].
  destruct ok; simpl; [|done].
  case_bool_decide; [done|]. apply Hfg.
Qed.

Lemma comma_separated_extends f g e n n' :
  extends f g → n ≤ n' →
  extends (_parse_comma_separated_values s f e n)
          (_parse_comma_separated_values s g e n').
Proof.
  intros Hfg. revert n'. induction n as [|n IH]; intros n' Hn p r; [done|].
  destruct n' as [|n']; [lia|]. simpl.
  case_bool_decide; [|done].
  destruct (f (_skip_whitespace s p)) as [[ok p2]|] eqn:Hf; [|done].
  rewrite (Hfg _ _ Hf). destruct ok; [|done].
  case_bool_decide; [done|]. case_bool_decide; [done|].
  apply IH. lia.
Qed.

Lemma value_extends d d' :
  d ≤ d' → extends (_parse_value s a d) (_parse_value s a d').
Proof.
  revert d'. induction d as [|d IH]; intros d' Hd p r; [done|].
  destruct d' as [|d']; [lia|]. simpl.
  destruct (s !! _skip_whitespace s p) as [c|]; [|done].
  specialize (IH d' ltac:(lia)).
  repeat case_bool_decide; try done.
  - unfold _parse_object. case_bool_decide; [done|]. case_bool_decide; [done|].
    apply comma_separated_extends; [|done].
    by apply key_value_pair_extends.
  - destruct a; simpl; [|done].
    unfold _parse_array. case_bool_decide; [done|]. case_bool_decide; [done|].
    by apply comma_separated_extends.
  - by rewrite andb_false_r.
Qed.

End Budget.

(** ** What is accepted is in the language *)

Lemma separated_prepend (Item : list N → Prop) e ws w :
  whitespace ws → Separated Item e w → Separated Item e (ws ++ w).
Proof.
  intros Hws [ws1 item ws2 H1 Hi H2|ws1 item ws2 rest H1 Hi H2 Hrest];
    rewrite app_assoc; constructor; try done; by apply Forall_app.
Qed.

Section Sound.
Context (s : list N) (a : bool).

Lemma key_value_pair_sound pv V :
  parses s V pv → parses s (Pair V) (_parse_key_value_pair s pv).
Proof.
  intros Hpv p q Hp. unfold _parse_key_value_pair.
  destruct (skip_whitespace_spec s p) as (H1 & H1' & Hws1 & _).
  set (p1 := _skip_whitespace s p) in *.
  destruct (_parse_string s p1) as [ok p2] eqn:Hstr.
  destruct ok; simpl; [|done].
  apply parse_string_sound in Hstr as [Hp2 Hkey].
  destruct (skip_whitespace_spec s p2) as (H3 & H3' & Hws2 & _).
  set (p3 := _skip_whitespace s p2) in *.
  case_bool_decide as Hc; [done|].
  apply lookup_lt_Some in Hc as Hlt.
  destruct (skip_whitespace_spec s (p3 + 1)) as (H4 & H4' & Hws3 & _).
  set (p4 := _skip_whitespace s (p3 + 1)) in *.
  intros Hr.
  destruct (Hpv p4 q ltac:(lia) Hr) as (Hq & ws' & v & Hws' & Hv & Hsub).
  split; [lia|].
  exists (sub s p p1),
    (sub s p1 p2 ++ sub s p2 p3 ++ [COLON] ++ (sub s (p3 + 1) p4 ++ ws') ++ v).
  split; [done|]. split.
  - constructor; try done. by apply Forall_app.
  - rewrite (sub_app s p p1 q) by lia. f_equal.
    rewrite (sub_app s p1 p2 q) by lia. f_equal.
    rewrite (sub_app s p2 p3 q) by lia. f_equal.
    rewrite (sub_app s p3 (S p3) q) by lia.
    rewrite (sub_one s p3 _ Hc). simpl. f_equal.
    rewrite (sub_app s (S p3) p4 q) by lia.
    replace (S p3) with (p3 + 1) by lia.
    by rewrite <- app_assoc, Hsub.
Qed.

Lemma comma_separated_sound f Item e :
  parses s Item f →
  ∀ n p q, p ≤ length s →
    _parse_comma_separated_values s f e n p = Some (true, q) →
    p ≤ q ≤ length s ∧ Separated Item e (sub s p q).
Proof.
  intros Hf. induction n as [|n IH]; intros p q Hp; simpl; [done|].
  case_bool_decide as Hlt; [|done].
  destruct (skip_whitespace_spec s p) as (H1 & H1' & Hws1 & _).
  set (p1 := _skip_whitespace s p) in *.
  destruct (f p1) as [[ok p2]|] eqn:Hf2; [|done].
  destruct ok; [|done].
  destruct (Hf p1 p2 ltac:(lia) Hf2) as (Hp2 & ws & item & Hws & Hitem & Hsub).
  destruct (skip_whitespace_spec s p2) as (H3 & H3' & Hws2 & _).
  set (p3 := _skip_whitespace s p2) in *.
  case_bool_decide as He.
  { intros [= <-]. apply lookup_lt_Some in He as Hlt3. split; [lia|].
    rewrite (sub_app s p p1 (p3 + 1)) by lia.
    rewrite (sub_app s p1 p2 (p3 + 1)) by lia.
    rewrite (sub_app s p2 p3 (p3 + 1)) by lia.
    replace (p3 + 1) with (S p3) by lia. rewrite (sub_one s p3 _ He).
    rewrite Hsub, <- app_assoc, app_assoc.
    constructor; try done. by apply Forall_app. }
  case_bool_decide as Hc; [done|].
  apply lookup_lt_Some in Hc as Hlt3.
  intros Hr. destruct (IH (p3 + 1) q ltac:(lia) Hr) as [Hq Hrest].
  split; [lia|].
  rewrite (sub_app s p p1 q) by lia.
  rewrite (sub_app s p1 p2 q) by lia.
  rewrite (sub_app s p2 p3 q) by lia.
  rewrite (sub_app s p3 (S p3) q) by lia. rewrite (sub_one s p3 _ Hc).
  replace (S p3) with (p3 + 1) by lia.
  rewrite Hsub, <- app_assoc, app_assoc.
  constructor; try done. by apply Forall_app.
Qed.

Lemma value_sound d : parses s (Value a) (_parse_value s a d).
Proof.
  induction d as [|d IH]; intros p q Hp; simpl; [done|].
  destruct (skip_whitespace_spec s p) as (H1 & H1' & Hws1 & _).
  set (p1 := _skip_whitespace s p) in *.
  destruct (s !! p1) as [c|] eqn:Hc; [|done].
  apply lookup_lt_Some in Hc as Hlt.
  assert (∀ v, Value a v → sub s p1 q = v → p1 ≤ q →
               ∃ ws v, whitespace ws ∧ Value a v ∧ sub s p q = ws ++ v)
    as Hwrap.
  { intros v Hv Hsub Hle. exists (sub s p p1), v. split_and!; [done..|].
    rewrite (sub_app s p p1 q) by lia. by rewrite Hsub. }
  case_bool_decide as Hobj.
  { subst c. unfold _parse_object. rewrite Hc, guard_ne_false.
    destruct (skip_whitespace_spec s (p1 + 1)) as (H2 & H2' & Hws2 & _).
    set (p2 := _skip_whitespace s (p1 + 1)) in *.
    case_bool_decide as He.
    - intros [= <-]. apply lookup_lt_Some in He as Hlt2. split; [lia|].
      eapply Hwrap; [apply (value_object_empty a (sub s (p1 + 1) p2) Hws2)| |lia].
      rewrite (sub_app s p1 (S p1) (p2 + 1)) by lia. rewrite (sub_one s p1 _ Hc).
      rewrite (sub_app s (S p1) p2 (p2 + 1)) by lia.
      replace (p2 + 1) with (S p2) by lia. rewrite (sub_one s p2 _ He).
      by replace (S p1) with (p1 + 1) by lia.
    - intros Hr.
      apply (comma_separated_sound _ (Pair (Value a)) RBRACE
               (key_value_pair_sound _ _ IH)) in Hr as [Hq Hms]; [|lia].
      split; [lia|].
      eapply Hwrap;
        [apply (value_object a (sub s (p1 + 1) p2 ++ sub s p2 q))| |lia].
      + by apply separated_prepend.
      + rewrite (sub_app s p1 (S p1) q) by lia. rewrite (sub_one s p1 _ Hc).
        rewrite (sub_app s (S p1) p2 q) by lia.
        by replace (S p1) with (p1 + 1) by lia. }
  case_bool_decide as Hstr.
  { intros [= Hr]. apply parse_string_sound in Hr as [Hq Htok].
    split; [lia|]. eapply Hwrap; [by apply value_string|done|lia]. }
  case_bool_decide as Hnull.
  { intros [= Hr]. pose proof (parse_literal_advances _ _ _ _ _ Hr) as [Hle Hbd].
    apply parse_literal_sound in Hr as [Hsub Hq].
    split; [lia|]. eapply Hwrap; [apply value_null|done|lia]. }
  destruct a eqn:Ha; simpl; [|done].
  case_bool_decide as Harr; [|done].
  subst c. unfold _parse_array. rewrite Hc, guard_ne_false.
  destruct (skip_whitespace_spec s (p1 + 1)) as (H2 & H2' & Hws2 & _).
  set (p2 := _skip_whitespace s (p1 + 1)) in *.
  case_bool_decide as He.
  - intros [= <-]. apply lookup_lt_Some in He as Hlt2. split; [lia|].
    eapply Hwrap;
      [apply (value_array_empty true (sub s (p1 + 1) p2) eq_refl Hws2)| |lia].
    rewrite (sub_app s p1 (S p1) (p2 + 1)) by lia. rewrite (sub_one s p1 _ Hc).
    rewrite (sub_app s (S p1) p2 (p2 + 1)) by lia.
    replace (p2 + 1) with (S p2) by lia. rewrite (sub_one s p2 _ He).
    by replace (S p1) with (p1 + 1) by lia.
  - intros Hr.
    apply (comma_separated_sound _ (Value true) RBRACKET IH) in Hr
      as [Hq Hes]; [|lia].
    split; [lia|].
    eapply Hwrap;
      [apply (value_array true (sub s (p1 + 1) p2 ++ sub s p2 q) eq_refl)| |lia].
    + by apply separated_prepend.
    + rewrite (sub_app s p1 (S p1) q) by lia. rewrite (sub_one s p1 _ Hc).
      rewrite (sub_app s (S p1) p2 q) by lia.
      by replace (S p1) with (p1 + 1) by lia.
Qed.

End Sound.

(** ** What is in the language is accepted *)

Lemma string_token_head tok :
  StringToken tok → ∃ t, tok = QUOTE :: t.
Proof. intros [body _]. by eexists. Qed.

Lemma pair_head V item : Pair V item → ∃ t, item = QUOTE :: t.
Proof.
  intros [key ws1 ws2 val [t ->]%string_token_head _ _ _]. by eexists.
Qed.

Lemma value_head a v :
  Value a v →
  ∃ c t, v = c :: t
         ∧ (c = LETTER_N ∨ c = QUOTE ∨ c = LBRACE ∨ c = LBRACKET).
Proof.
  intros [|tok [t ->]%string_token_head| | | |]; eexists _, _; split;
    try reflexivity; auto.
Qed.

Lemma value_head_nonspace a v :
  Value a v → ∃ c t, v = c :: t ∧ isspace c = false ∧ c ≠ RBRACKET.
Proof.
  intros Hv. destruct (value_head a v Hv) as (c & t & Hvt & Hc).
  exists c, t. split; [done|].
  destruct Hc as [-> | [-> | [-> | ->]]]; by split.
Qed.

Lemma pair_head_nonspace V item :
  Pair V item → ∃ c t, item = c :: t ∧ isspace c = false ∧ c ≠ RBRACE.
Proof. intros [t ->]%pair_head. by exists QUOTE, t. Qed.

(** Two cuts of the input into the same pieces. *)
Ltac same_cut Hs :=
  rewrite Hs; rewrite <- ?app_assoc, ?app_nil_r; simpl; reflexivity.

(** Arithmetic on the lengths of the pieces. *)
Ltac lengths :=
  repeat match goal with
    | H : context [length (_ ++ _)] |- _ => rewrite !length_app in H
    | H : context [length (_ :: _)] |- _ => progress cbn [length] in H
    end;
  repeat first [rewrite !length_app | progress cbn [length]]; lia.

Section Complete.
Context (s : list N) (a : bool).

Lemma skip_whitespace_at pre ws suf :
  s = pre ++ ws ++ suf → whitespace ws →
  (∀ c, head suf = Some c → isspace c = false) →
  _skip_whitespace s (length pre) = length (pre ++ ws).
Proof.
  intros Hs Hws Hsuf. rewrite length_app. by eapply skip_whitespace_app.
Qed.

Lemma lookup_at pre suf : s = pre ++ suf → s !! length pre = head suf.
Proof. intros ->. apply lookup_middle. Qed.

Lemma key_value_pair_complete pv V bound :
  (∀ v, V v → ∃ c t, v = c :: t ∧ isspace c = false) →
  (∀ pre v suf, s = pre ++ v ++ suf → V v → length v ≤ bound →
                pv (length pre) = Some (true, length pre + length v)) →
  ∀ pre item suf, s = pre ++ item ++ suf → Pair V item →
    length item ≤ S bound →
    _parse_key_value_pair s pv (length pre)
    = Some (true, length pre + length item).
Proof.
  intros Hhead Hpv pre item suf Hs Hpair. revert Hs.
  destruct Hpair as [key ws1 ws2 val Hkey Hws1 Hws2 Hval]. intros Hs Hlen.
  unfold _parse_key_value_pair.
  destruct (string_token_head key Hkey) as [t Ht].
  rewrite (skip_whitespace_at pre [] ((key ++ ws1 ++ [COLON] ++ ws2 ++ val) ++ suf));
    [|same_cut Hs|constructor|by subst key; intros c [= <-]].
  rewrite app_nil_r.
  rewrite (parse_string_app s pre key ((ws1 ++ [COLON] ++ ws2 ++ val) ++ suf));
    [|same_cut Hs|done].
  simpl. rewrite <- length_app.
  rewrite (skip_whitespace_at (pre ++ key) ws1 (([COLON] ++ ws2 ++ val) ++ suf));
    [|same_cut Hs|done|by intros c [= <-]].
  rewrite (lookup_at ((pre ++ key) ++ ws1) (([COLON] ++ ws2 ++ val) ++ suf))
    by same_cut Hs.
  simpl. rewrite ?guard_ne_false.
  replace (length ((pre ++ key) ++ ws1) + 1)
    with (length (((pre ++ key) ++ ws1) ++ [COLON]))
    by lengths.
  rewrite (skip_whitespace_at (((pre ++ key) ++ ws1) ++ [COLON]) ws2 (val ++ suf));
    [|same_cut Hs|done|].
  2: { destruct (Hhead val Hval) as (c & t' & -> & Hc). by intros ? [= <-]. }
  rewrite (Hpv ((((pre ++ key) ++ ws1) ++ [COLON]) ++ ws2) val suf);
    [|same_cut Hs|done|].
  - do 2 f_equal. lengths.
  - lengths.
Qed.

End Complete.

Section CompleteValue.
Context (s : list N) (a : bool).

Lemma comma_separated_complete f (Item : list N → Prop) e bound :
  isspace e = false → e ≠ COMMA →
  (∀ item, Item item → ∃ c t, item = c :: t ∧ isspace c = false ∧ c ≠ e) →
  (∀ pre item suf, s = pre ++ item ++ suf → Item item →
                   length item ≤ bound →
                   f (length pre) = Some (true, length pre + length item)) →
  ∀ w, Separated Item e w →
    ∀ pre suf n, s = pre ++ w ++ suf → length w ≤ S bound → length w ≤ n →
      _parse_comma_separated_values s f e n (length pre)
      = Some (true, length pre + length w).
Proof.
  intros He Hec Hhead Hf w Hw.
  induction Hw as [ws1 item ws2 Hws1 Hitem Hws2
                  |ws1 item ws2 rest Hws1 Hitem Hws2 Hrest IH];
    intros pre suf n Hs Hb Hn;
    (destruct n as [|n]; [exfalso; lengths|]); simpl;
    (rewrite bool_decide_eq_true_2
       by (apply (f_equal length) in Hs; lengths));
    destruct (Hhead item Hitem) as (c & t & Hit & Hc & _).
  - rewrite (skip_whitespace_at s pre ws1 ((item ++ ws2 ++ [e]) ++ suf));
      [|same_cut Hs|done|by rewrite Hit; intros ? [= <-]].
    rewrite (Hf (pre ++ ws1) item ((ws2 ++ [e]) ++ suf));
      [|same_cut Hs|done|lengths].
    rewrite <- length_app.
    rewrite (skip_whitespace_at s ((pre ++ ws1) ++ item) ws2 ([e] ++ suf));
      [|same_cut Hs|done|by intros ? [= <-]].
    rewrite (lookup_at s (((pre ++ ws1) ++ item) ++ ws2) ([e] ++ suf))
      by same_cut Hs.
    simpl. rewrite bool_decide_eq_true_2 by done.
    do 2 f_equal. lengths.
  - rewrite (skip_whitespace_at s pre ws1
               ((item ++ ws2 ++ [COMMA] ++ rest) ++ suf));
      [|same_cut Hs|done|by rewrite Hit; intros ? [= <-]].
    rewrite (Hf (pre ++ ws1) item ((ws2 ++ [COMMA] ++ rest) ++ suf));
      [|same_cut Hs|done|lengths].
    rewrite <- length_app.
    rewrite (skip_whitespace_at s ((pre ++ ws1) ++ item) ws2
               (([COMMA] ++ rest) ++ suf));
      [|same_cut Hs|done|by intros ? [= <-]].
    rewrite (lookup_at s (((pre ++ ws1) ++ item) ++ ws2)
               (([COMMA] ++ rest) ++ suf)) by same_cut Hs.
    simpl. rewrite bool_decide_eq_false_2 by congruence.
    rewrite ?guard_ne_false.
    replace (length (((pre ++ ws1) ++ item) ++ ws2) + 1)
      with (length ((((pre ++ ws1) ++ item) ++ ws2) ++ [COMMA])) by lengths.
    rewrite (IH ((((pre ++ ws1) ++ item) ++ ws2) ++ [COMMA]) suf n);
      [|same_cut Hs|lengths|lengths].
    do 2 f_equal. lengths.
Qed.

#[local] Arguments _parse_comma_separated_values : simpl never.

(** A sequence of items, cut after its leading whitespace. *)
Lemma separated_strip (Item : list N → Prop) e w :
  (∀ item, Item item → ∃ c t, item = c :: t ∧ isspace c = false ∧ c ≠ e) →
  Separated Item e w →
  ∃ ws w' c t, w = ws ++ w' ∧ whitespace ws ∧ Separated Item e w'
               ∧ w' = c :: t ∧ isspace c = false ∧ c ≠ e.
Proof.
  intros Hhead [ws1 item ws2 H1 Hi H2|ws1 item ws2 rest H1 Hi H2 Hrest];
    destruct (Hhead item Hi) as (c & t & -> & Hc & Hce).
  - exists ws1, ([] ++ (c :: t) ++ ws2 ++ [e]), c, (t ++ ws2 ++ [e]).
    split_and!; try done.
    apply (separated_last Item e [] (c :: t) ws2); [constructor|done..].
  - exists ws1, ([] ++ (c :: t) ++ ws2 ++ [COMMA] ++ rest), c,
      (t ++ ws2 ++ [COMMA] ++ rest).
    split_and!; try done.
    apply (separated_more Item e [] (c :: t) ws2 rest); [constructor|done..].
Qed.

Lemma value_nonempty v : Value a v → 0 < length v.
Proof. intros (c & t & -> & _)%value_head. simpl. lia. Qed.

(** A value of the language, wherever it stands in the input and after any
    whitespace, is accepted by [_parse_value], which stops right after it. *)
Lemma value_complete n :
  ∀ v, length v ≤ n → Value a v →
  ∀ pre ws suf d, s = pre ++ ws ++ v ++ suf → whitespace ws → length v < d →
    _parse_value s a d (length pre) = Some (true, length (pre ++ ws ++ v)).
Proof.
  induction n as [|n IH]; intros v Hn Hv pre ws suf d Hs Hws Hd.
  { apply value_nonempty in Hv. lia. }
  destruct d as [|d]; [lia|]. simpl.
  destruct (value_head_nonspace a v Hv) as (c & t & Hvt & Hc & _).
  rewrite (skip_whitespace_at s pre ws (v ++ suf));
    [|done|done|by rewrite Hvt; intros ? [= <-]].
  rewrite (lookup_at s (pre ++ ws) (v ++ suf)) by same_cut Hs.
  assert (length v = S (length t)) as Hlv by (by rewrite Hvt).
  assert (∀ pre' v' suf', s = pre' ++ v' ++ suf' → Value a v' →
            length v' ≤ length t →
            _parse_value s a d (length pre')
            = Some (true, length pre' + length v')) as Hinner.
  { intros pre' v' suf' Hs' Hv' Hn'.
    rewrite (IH v' ltac:(lengths) Hv' pre' [] suf' d);
      [|done|constructor|lengths].
    do 2 f_equal. lengths. }
  assert (∀ v', Value a v' → ∃ c t, v' = c :: t ∧ isspace c = false)
    as Hvh.
  { intros v' Hv'. destruct (value_head_nonspace a v' Hv')
      as (c' & t' & ? & ? & _). eauto. }
  clear IH Hlv. revert Hs Hn Hd Hvt Hinner.
  destruct Hv as [|tok Htok|ws'|members Hms|ws' Ha|elements Ha Hes];
    intros Hs Hn Hd Hvt Hinner.
  - simpl. rewrite (parse_literal_app s (pre ++ ws) (codes "null") suf)
      by same_cut Hs.
    do 2 f_equal. lengths.
  - destruct (string_token_head tok Htok) as [t' ->]. simpl.
    rewrite (parse_string_app s (pre ++ ws) (QUOTE :: t') suf);
      [|same_cut Hs|done].
    do 2 f_equal. lengths.
  - simpl. unfold _parse_object.
    rewrite (lookup_at s (pre ++ ws) (([LBRACE] ++ ws' ++ [RBRACE]) ++ suf))
      by same_cut Hs.
    simpl. rewrite ?guard_ne_false.
    replace (length (pre ++ ws) + 1) with (length ((pre ++ ws) ++ [LBRACE]))
      by lengths.
    rewrite (skip_whitespace_at s ((pre ++ ws) ++ [LBRACE]) ws' ([RBRACE] ++ suf));
      [|same_cut Hs|done|by intros ? [= <-]].
    rewrite (lookup_at s (((pre ++ ws) ++ [LBRACE]) ++ ws') ([RBRACE] ++ suf))
      by same_cut Hs.
    simpl. do 2 f_equal. lengths.
  - injection Hvt as <- <-. simpl. unfold _parse_object.
    rewrite (lookup_at s (pre ++ ws) (([LBRACE] ++ members) ++ suf))
      by same_cut Hs.
    simpl. rewrite ?guard_ne_false.
    destruct (separated_strip _ _ _ (pair_head_nonspace (Value a)) Hms)
      as (ws' & w' & c' & t' & -> & Hws' & Hw' & Hwt & Hc' & Hce).
    replace (length (pre ++ ws) + 1) with (length ((pre ++ ws) ++ [LBRACE]))
      by lengths.
    rewrite (skip_whitespace_at s ((pre ++ ws) ++ [LBRACE]) ws' (w' ++ suf));
      [|same_cut Hs|done|by rewrite Hwt; intros ? [= <-]].
    rewrite (lookup_at s (((pre ++ ws) ++ [LBRACE]) ++ ws') (w' ++ suf))
      by same_cut Hs.
    replace (head (w' ++ suf)) with (Some c') by (by rewrite Hwt).
    rewrite bool_decide_eq_false_2 by congruence.
    assert (∀ pre' item suf', s = pre' ++ item ++ suf' →
              Pair (Value a) item → length item ≤ length (ws' ++ w') →
              _parse_key_value_pair s (_parse_value s a d) (length pre')
              = Some (true, length pre' + length item)) as Hf.
    { intros pre' item suf' Hs' Hitem Hlen.
      apply (key_value_pair_complete s _ (Value a) (length (ws' ++ w'))
               Hvh Hinner pre' item suf' Hs' Hitem). lia. }
    rewrite (comma_separated_complete _ (Pair (Value a)) RBRACE
               (length (ws' ++ w')) eq_refl ltac:(done)
               (pair_head_nonspace (Value a)) Hf w' Hw'
               (((pre ++ ws) ++ [LBRACE]) ++ ws') suf (S (length s)));
      [do 2 f_equal; lengths|same_cut Hs|lengths
      |apply (f_equal length) in Hs; lengths].
  - injection Hvt as <- <-. destruct a; [|done]. simpl. unfold _parse_array.
    rewrite (lookup_at s (pre ++ ws) (([LBRACKET] ++ ws' ++ [RBRACKET]) ++ suf))
      by same_cut Hs.
    simpl. rewrite ?guard_ne_false.
    replace (length (pre ++ ws) + 1) with (length ((pre ++ ws) ++ [LBRACKET]))
      by lengths.
    rewrite (skip_whitespace_at s ((pre ++ ws) ++ [LBRACKET]) ws'
               ([RBRACKET] ++ suf));
      [|same_cut Hs|done|by intros ? [= <-]].
    rewrite (lookup_at s (((pre ++ ws) ++ [LBRACKET]) ++ ws') ([RBRACKET] ++ suf))
      by same_cut Hs.
    simpl. do 2 f_equal. lengths.
  - injection Hvt as <- <-. destruct a; [|done]. simpl. unfold _parse_array.
    rewrite (lookup_at s (pre ++ ws) (([LBRACKET] ++ elements) ++ suf))
      by same_cut Hs.
    simpl. rewrite ?guard_ne_false.
    destruct (separated_strip _ _ _ (value_head_nonspace true) Hes)
      as (ws' & w' & c' & t' & -> & Hws' & Hw' & Hwt & Hc' & Hce).
    replace (length (pre ++ ws) + 1) with (length ((pre ++ ws) ++ [LBRACKET]))
      by lengths.
    rewrite (skip_whitespace_at s ((pre ++ ws) ++ [LBRACKET]) ws' (w' ++ suf));
      [|same_cut Hs|done|by rewrite Hwt; intros ? [= <-]].
    rewrite (lookup_at s (((pre ++ ws) ++ [LBRACKET]) ++ ws') (w' ++ suf))
      by same_cut Hs.
    replace (head (w' ++ suf)) with (Some c') by (by rewrite Hwt).
    rewrite bool_decide_eq_false_2 by congruence.
    rewrite (comma_separated_complete _ (Value true) RBRACKET
               (length (ws' ++ w')) eq_refl ltac:(done)
               (value_head_nonspace true) Hinner w' Hw'
               (((pre ++ ws) ++ [LBRACKET]) ++ ws') suf (S (length s)));
      [do 2 f_equal; lengths|same_cut Hs|lengths
      |apply (f_equal length) in Hs; lengths].
Qed.

End CompleteValue.

(** ** The validator *)

Lemma validate_sound s a : validate s a = Some true → Document a s.
Proof.
  unfold validate, validate_within.
  destruct (_parse_value s a (S (length s)) 0) as [[b q]|] eqn:Hpv; [|done].
  intros [= [-> Hend%bool_decide_eq_true]%andb_true_iff].
  destruct (value_sound s a _ 0 q ltac:(lia) Hpv)
    as (Hq & ws & v & Hws & Hv & Hsub).
  destruct (skip_whitespace_spec s q) as (_ & _ & Hws2 & _).
  rewrite Hend in Hws2.
  exists ws, v, (sub s q (length s)). split_and!; try done.
  rewrite <- (sub_all s) at 1.
  rewrite (sub_app s 0 q (length s)) by lia.
  by rewrite Hsub, <- app_assoc.
Qed.

Lemma validate_complete s a : Document a s → validate s a = Some true.
Proof.
  intros (ws1 & v & ws2 & Hs & Hws1 & Hv & Hws2).
  unfold validate, validate_within.
  pose proof (value_complete s a (length v) v ltac:(lia) Hv [] ws1 ws2
                (S (length s)) Hs Hws1) as Hpv.
  change (length (@nil N)) with 0 in Hpv.
  rewrite Hpv by (apply (f_equal length) in Hs; lengths).
  rewrite app_nil_l.
  rewrite (skip_whitespace_at s (ws1 ++ v) ws2 []);
    [|same_cut Hs|done|done].
  rewrite bool_decide_eq_true_2; [done|].
  apply (f_equal length) in Hs. lengths.
Qed.

Lemma validate_total s a : is_Some (validate s a).
Proof.
  unfold validate, validate_within.
  destruct (value_total s a (S (length s)) 0 ltac:(lia)) as [[b q] ->].
  by eauto.
Qed.

(** X10. [validate] accepts exactly the documents of the language: optional
    whitespace, one value, optional whitespace, where a value is [null], a
    string token, an object of key-value pairs or (when arrays are allowed)
    an array, and a string token ends at the first double quote after the
    opening one.  It answers on every input. *)
Theorem validate_language (s : list N) (a : bool) :
  (validate s a = Some true ↔ Document a s)
  ∧ (validate s a = Some false ↔ ¬ Document a s).
Proof.
  assert (validate s a = Some true ↔ Document a s) as Hiff.
  { split; [apply validate_sound|apply validate_complete]. }
  split; [done|].
  destruct (validate_total s a) as [[|] Hb]; rewrite Hb in *.
  - split; [done|]. intros Hno. exfalso. by apply Hno, Hiff.
  - split; [|done]. intros _ Hdoc. by apply Hiff in Hdoc.
Qed.

Lemma validate_language_witness :
  Document false (codes "null") ∧ validate (codes "null") false = Some true.
Proof.
  assert (Document false (codes "null")) as H.
  { exists [], (codes "null"), []. split_and!; try constructor. }
  split; [exact H|].
  exact (proj2 (proj1 (validate_language (codes "null") false)) H).
Defined.

(** X11. The recursion and the loops terminate: a budget of more nested
    [_parse_value] calls than the input has characters is never used up,
    and every such budget gives the answer of [validate]. *)
Theorem validate_budget (s : list N) (a : bool) (depth : nat) :
  length s < depth →
  is_Some (validate s a) ∧ validate_within depth s a = validate s a.
Proof.
  intros Hd. split; [apply validate_total|].
  unfold validate, validate_within.
  destruct (value_total s a (S (length s)) 0 ltac:(lia)) as [r Hr].
  by rewrite Hr, (value_extends s a (S (length s)) depth ltac:(lia) 0 r Hr).
Qed.

Lemma validate_budget_witness :
  length (text "{'a': null}") < 50
  ∧ validate_within 50 (text "{'a': null}") false = Some true.
Proof.
  assert (length (text "{'a': null}") < 50) as H by (vm_compute; lia).
  split; [exact H|].
  exact (proj2 (validate_budget (text "{'a': null}") false 50 H)).
Defined.

(** X12. No parsing method moves the position back, and none moves it
    beyond the end of the input: whatever [_parse_value] answers from a
    position [p], the position [q] it leaves is at least [p], and at most the
    length of the input when [p] is. *)
Theorem position_advances (s : list N) (a : bool) (depth p : nat) (b : bool)
    (q : nat) :
  _parse_value s a depth p = Some (b, q) →
  p ≤ q ∧ (p ≤ length s → q ≤ length s).
Proof. apply value_advances. Qed.

Lemma position_advances_witness :
  _parse_value (text "  {'a' : 7}") false 20 0 = Some (false, 9)
  ∧ 0 ≤ 9 ∧ (0 ≤ length (text "  {'a' : 7}") → 9 ≤ length (text "  {'a' : 7}")).
Proof.
  assert (_parse_value (text "  {'a' : 7}") false 20 0 = Some (false, 9)) as H
    by (by vm_compute).
  split; [exact H|].
  exact (position_advances _ false 20 0 false 9 H).
Defined.

(** X13. A string token ends at the first double quote after the opening
    one, whatever stands before it: no character escapes a double quote.  A
    string without a second double quote is rejected at the end of the
    input. *)
Theorem string_ends_at_first_quote (s pre body suf : list N) :
  QUOTE ∉ body →
  (s = pre ++ [QUOTE] ++ body ++ [QUOTE] ++ suf →
   _parse_string s (length pre) = (true, length pre + length body + 2))
  ∧ (s = pre ++ [QUOTE] ++ body →
     _parse_string s (length pre) = (false, length s)).
Proof.
  intros Hbody. split; intros Hs.
  - rewrite (parse_string_app s pre ([QUOTE] ++ body ++ [QUOTE]) suf);
      [|same_cut Hs|by constructor].
    f_equal. lengths.
  - unfold _parse_string.
    rewrite (lookup_at s pre ([QUOTE] ++ body)) by done. simpl.
    replace (length pre + 1) with (length (pre ++ [QUOTE])) by lengths.
    rewrite (parse_string_loop_app s (pre ++ [QUOTE]) body []);
      [|same_cut Hs|done|done].
    assert (length (pre ++ [QUOTE]) + length body = length s) as ->
      by (apply (f_equal length) in Hs; lengths).
    rewrite lookup_ge_None_2 by done. done.
Qed.

Lemma string_ends_at_first_quote_witness :
  (QUOTE ∉ [97; 92]%N)
  ∧ _parse_string ([QUOTE] ++ [97; 92]%N ++ [QUOTE] ++ [98; QUOTE]%N) 0
    = (true, 4).
Proof.
  assert (QUOTE ∉ [97; 92]%N) as H.
  { intros Hin. repeat (apply elem_of_cons in Hin as [Hin|Hin]; [done|]).
    by apply elem_of_nil in Hin. }
  split; [exact H|].
  exact (proj1 (string_ends_at_first_quote _ [] [97; 92]%N [98; QUOTE]%N H)
           eq_refl).
Defined.

(** ** Allowing arrays only adds documents *)

Section Arrays.
Context (s : list N).

Lemma key_value_pair_accepts_more f g :
  accepts_more f g →
  accepts_more (_parse_key_value_pair s f) (_parse_key_value_pair s g).
Proof.
  intros Hfg p q. unfold _parse_key_value_pair.
  destruct (_parse_string s (_skip_whitespace s p)) as [ok p2].
  destruct ok; simpl; [|done].
  case_bool_decide; [done|]. apply Hfg.
Qed.

Lemma comma_separated_accepts_more f g e n :
  accepts_more f g →
  accepts_more (_parse_comma_separated_values s f e n)
               (_parse_comma_separated_values s g e n).
Proof.
  intros Hfg. induction n as [|n IH]; intros p q; [done|]. simpl.
  case_bool_decide; [|done].
  destruct (f (_skip_whitespace s p)) as [[ok p2]|] eqn:Hf; [|done].
  destruct ok; [|done]. rewrite (Hfg _ _ Hf).
  case_bool_decide; [done|]. case_bool_decide; [done|]. apply IH.
Qed.

Lemma value_accepts_more d :
  accepts_more (_parse_value s false d) (_parse_value s true d).
Proof.
  induction d as [|d IH]; intros p q; [done|]. simpl.
  destruct (s !! _skip_whitespace s p) as [c|]; [|done].
  repeat case_bool_decide; try done.
  unfold _parse_object. case_bool_decide; [done|]. case_bool_decide; [done|].
  by apply comma_separated_accepts_more, key_value_pair_accepts_more.
Qed.

End Arrays.

(** X14. Allowing arrays only adds accepted inputs: whatever [validate]
    accepts with [allow_arrays=False] it accepts with [allow_arrays=True]. *)
Theorem arrays_only_add (s : list N) :
  validate s false = Some true → validate s true = Some true.
Proof.
  unfold validate, validate_within.
  destruct (_parse_value s false (S (length s)) 0) as [[b q]|] eqn:Hpv; [|done].
  intros [= [-> Hend]%andb_true_iff].
  by rewrite (value_accepts_more s _ 0 q Hpv), Hend.
Qed.

Lemma arrays_only_add_witness :
  validate (text " { 'key': null, 'other': 'value' } ") false = Some true
  ∧ validate (text " { 'key': null, 'other': 'value' } ") true = Some true.
Proof.
  assert (validate (text " { 'key': null, 'other': 'value' } ") false
          = Some true) as H by (by vm_compute).
  split; [exact H|].
  exact (arrays_only_add _ H).
Defined.

(** X15. An accepted input has a first character that is not whitespace,
    and it is the letter n, a double quote, an opening brace or, with arrays
    allowed only, an opening bracket; so the empty input, an input of
    whitespace only, a number, and with arrays not allowed any input
    starting with a bracket, are all rejected. *)
Theorem accepted_first_character (s : list N) (a : bool) :
  validate s a = Some true →
  ∃ ws c rest, s = ws ++ c :: rest ∧ whitespace ws ∧ isspace c = false
               ∧ (c = LETTER_N ∨ c = QUOTE ∨ c = LBRACE
                  ∨ (c = LBRACKET ∧ a = true)).
Proof.
  intros (ws1 & v & ws2 & -> & Hws1 & Hv & Hws2)%validate_sound.
  assert (∃ c t, v = c :: t
                 ∧ (c = LETTER_N ∨ c = QUOTE ∨ c = LBRACE
                    ∨ (c = LBRACKET ∧ a = true))) as (c & t & -> & Hc).
  { destruct Hv as [|tok [t ->]%string_token_head| | |ws Ha|es Ha];
      eexists _, _; (split; [reflexivity|]); auto. }
  exists ws1, c, (t ++ ws2). split_and!; try done.
  destruct Hc as [-> | [-> | [-> | [-> _]]]]; done.
Qed.

Lemma accepted_first_character_witness :
  validate (text "  'x'") false = Some true
  ∧ ∃ ws c rest, text "  'x'" = ws ++ c :: rest ∧ whitespace ws
                 ∧ isspace c = false
                 ∧ (c = LETTER_N ∨ c = QUOTE ∨ c = LBRACE
                    ∨ (c = LBRACKET ∧ false = true)).
Proof.
  assert (validate (text "  'x'") false = Some true) as H by (by vm_compute).
  split; [exact H|].
  exact (accepted_first_character _ false H).
Defined.
